(** * The interactive JavaScript console of go-expanse

    A shallow embedding of the console's statement accumulator, history
    redaction, word completion, transaction confirmation hook and bridge
    bindings, followed by the properties established about them.

    Go strings are byte strings: they are modelled by [string], one [ascii]
    per byte.  Go's [int] is modelled by [Z]; lengths and indices that the
    code keeps non-negative are [nat]. *)

From Stdlib Require Import ZArith Ascii String List Lia Bool.
From stdpp Require Import base option list gmap strings.

Local Open Scope string_scope.
Local Open Scope Z_scope.

#[local] Arguments String.append !_ _ : simpl nomatch.

(** ** The parts of Go's [strings] package the console uses *)

Module Strings.

(** The line feed, written ["\n"] in the source. *)
Definition LF : ascii := ascii_of_nat 10.
Definition nl : string := String LF "".

(** [strings.Count(s, substr)] for a one-byte [substr]. *)
Fixpoint Count (s : string) (c : ascii) : Z :=
  match s with
  | EmptyString => 0
  | String a s' => (if Ascii.eqb a c then 1 else 0) + Count s' c
  end.

(** [strings.Contains(s, substr)] for a one-byte [substr]. *)
Fixpoint Contains (s : string) (c : ascii) : bool :=
  match s with
  | EmptyString => false
  | String a s' => Ascii.eqb a c || Contains s' c
  end.

(** [strings.Split(s, sep)] for a one-byte [sep]: the pieces between
    the separators, [Count s sep + 1] of them. *)
Fixpoint Split (s : string) (sep : ascii) : list string :=
  match s with
  | EmptyString => [EmptyString]
  | String a s' =>
      if Ascii.eqb a sep then EmptyString :: Split s' sep
      else match Split s' sep with
           | [] => [String a EmptyString]
           | x :: xs => String a x :: xs
           end
  end.

(** [strings.HasPrefix(s, prefix)]. *)
Fixpoint HasPrefix (s prefix : string) : bool :=
  match prefix, s with
  | EmptyString, _ => true
  | String p prefix', String a s' => Ascii.eqb a p && HasPrefix s' prefix'
  | String _ _, EmptyString => false
  end.

Definition inCutset (cutset : string) (a : ascii) : bool := Contains cutset a.

(** [strings.TrimLeft(s, cutset)] and [strings.TrimRight(s, cutset)], for
    a cutset of one-byte characters. *)
Fixpoint TrimLeft (s cutset : string) : string :=
  match s with
  | EmptyString => EmptyString
  | String a s' => if inCutset cutset a then TrimLeft s' cutset else s
  end.

Fixpoint TrimRight (s cutset : string) : string :=
  match s with
  | EmptyString => EmptyString
  | String a s' =>
      match TrimRight s' cutset with
      | EmptyString => if inCutset cutset a then EmptyString else String a EmptyString
      | r => String a r
      end
  end.

(** [strings.Trim(s, cutset)]. *)
Definition Trim (s cutset : string) : string :=
  TrimRight (TrimLeft s cutset) cutset.

(** [strings.Join(elems, sep)]. *)
Fixpoint Join (elems : list string) (sep : string) : string :=
  match elems with
  | [] => EmptyString
  | [x] => x
  | x :: xs => x ++ sep ++ Join xs sep
  end.

(** [strings.TrimSuffix(s, "\n")]. *)
Fixpoint TrimSuffixLF (s : string) : string :=
  match s with
  | EmptyString => EmptyString
  | String a EmptyString => if Ascii.eqb a LF then EmptyString else s
  | String a s' => String a (TrimSuffixLF s')
  end.

(** The slice [s[lo:hi]], for [lo <= hi <= len(s)]. *)
Definition slice (s : string) (lo hi : nat) : string :=
  substring lo (hi - lo) s.

(** [make([]string, n)]: [n] empty strings. *)
Definition make (n : Z) : list string := repeat EmptyString (Z.to_nat n).

End Strings.

Import Strings.

(** ** The sensitive-command pattern

    [passwordRegexp = regexp.MustCompile("personal.[nu]")].  Go's regexp
    engine reads its input rune by rune; [.] matches one rune other than
    the line feed and a byte that starts no valid UTF-8 sequence counts as
    one rune of width 1.  The literal [personal] and the class [[nu]] are
    ASCII, so a match is: the eight bytes [personal], one rune that is not
    a line feed, then the byte [n] or [u]. *)

Module Regexp.

Definition byte (a : ascii) : Z := Z.of_nat (nat_of_ascii a).

Definition between (lo hi : Z) (a : ascii) : bool :=
  (lo <=? byte a) && (byte a <=? hi).

(** Size and range of the second byte announced by a leading byte, after
    the table [first] of [unicode/utf8]; [None] for ASCII and for bytes
    that start no sequence. *)
Definition leading (a : ascii) : option (nat * (Z * Z)) :=
  let b := byte a in
  if b <? 194 then None
  else if b <? 224 then Some (2%nat, (128, 191))
  else if b =? 224 then Some (3%nat, (160, 191))
  else if b =? 237 then Some (3%nat, (128, 159))
  else if b <? 240 then Some (3%nat, (128, 191))
  else if b =? 240 then Some (4%nat, (144, 191))
  else if b <? 244 then Some (4%nat, (128, 191))
  else if b =? 244 then Some (4%nat, (128, 143))
  else None.

(** Width in bytes of the first rune of a non-empty string, as
    [utf8.DecodeRuneInString] reports it. *)
Definition runeWidth (s : string) : nat :=
  match s with
  | EmptyString => 0
  | String s0 rest =>
      match leading s0 with
      | None => 1
      | Some (sz, (lo, hi)) =>
          if (String.length s <? sz)%nat then 1 else
          match rest with
          | String s1 rest1 =>
              if negb (between lo hi s1) then 1
              else if (sz <=? 2)%nat then 2
              else match rest1 with
                   | String s2 rest2 =>
                       if negb (between 128 191 s2) then 1
                       else if (sz <=? 3)%nat then 3
                       else match rest2 with
                            | String s3 _ =>
                                if negb (between 128 191 s3) then 1 else 4
                            | EmptyString => 1
                            end
                   | EmptyString => 1
                   end
          | EmptyString => 1
          end
      end
  end.

Fixpoint skip (n : nat) (s : string) : string :=
  match n, s with
  | O, _ => s
  | S n', String _ s' => skip n' s'
  | S _, EmptyString => EmptyString
  end.

(** The remainder of [s] after the literal [lit], if [s] starts with it. *)
Fixpoint literal (lit s : string) : option string :=
  match lit, s with
  | EmptyString, _ => Some s
  | String p lit', String a s' => if Ascii.eqb a p then literal lit' s' else None
  | String _ _, EmptyString => None
  end.

(** [personal.[nu]] matched at the very start of [s]. *)
Definition matchHere (s : string) : bool :=
  match literal "personal" s with
  | Some (String c _ as rest) =>
      if Ascii.eqb c LF then false
      else match skip (runeWidth rest) rest with
           | String d _ => Ascii.eqb d "n" || Ascii.eqb d "u"
           | EmptyString => false
           end
  | _ => false
  end.

(** [passwordRegexp.MatchString(s)]: an unanchored search. *)
Fixpoint MatchString (s : string) : bool :=
  matchHere s ||
  match s with
  | EmptyString => false
  | String _ s' => MatchString s'
  end.

End Regexp.

Definition passwordRepl : string := "".

(** [hidepassword] *)
Definition hidepassword (input : string) : string :=
  if Regexp.MatchString input then passwordRepl else input.

(** ** The read loop of [jsre.interactive]

    The package variables [str] and [indentCount], the field [ps1], and
    two logs of what the loop hands to its collaborators: the arguments of
    [AppendHistory] and the arguments of [parseInput], oldest first. *)

Record session : Type := Session {
  str : string;
  indentCount : Z;
  ps1 : string;
  history : list string;
  evaluated : list string
}.

Definition initial : session :=
  {| str := ""; indentCount := 0; ps1 := "> "; history := []; evaluated := [] |}.

(** [resetPrompt] *)
Definition resetPrompt (s : session) : session :=
  {| str := ""; indentCount := 0; ps1 := "> ";
     history := history s; evaluated := evaluated s |}.

(** The net depth [setIndent] computes over the buffer. *)
Definition depth (buf : string) : Z :=
  let open := Count buf "{" in
  let open := open + Count buf "(" in
  let closed := Count buf "}" in
  let closed := closed + Count buf ")" in
  open - closed.

(** [setIndent] *)
Definition setIndent (s : session) : session :=
  let ic := depth (str s) in
  {| str := str s; indentCount := ic;
     ps1 := if ic <=? 0 then "> "
            else Join (make (ic * 2)) ".." ++ " ";
     history := history s; evaluated := evaluated s |}.

Definition AppendHistory (s : session) (item : string) : session :=
  {| str := str s; indentCount := indentCount s; ps1 := ps1 s;
     history := history s ++ [item]; evaluated := evaluated s |}.

Definition parseInput (s : session) (code : string) : session :=
  {| str := str s; indentCount := indentCount s; ps1 := ps1 s;
     history := history s; evaluated := evaluated s ++ [code] |}.

Definition setStr (s : session) (buf : string) : session :=
  {| str := buf; indentCount := indentCount s; ps1 := ps1 s;
     history := history s; evaluated := evaluated s |}.

(** What one turn of the loop waits for: a line from the prompt, a prompt
    aborted by ctrl-C (the reader calls [resetPrompt] and sends the empty
    line), the end of the input channel, or the interrupt signal. *)
Inductive event : Type :=
| Line (input : string)
| Aborted
| Closed
| Interrupt.

Inductive outcome : Type :=
| Running (s : session)
| Exited (s : session).

(** The branch [case input, ok := <-inputln] with [ok] true. *)
Definition receive (s : session) (input : string) : outcome :=
  if (indentCount s <=? 0) && String.eqb input "exit" then Exited s
  else if String.eqb input "" then Running s
  else
    let s := setStr s (str s ++ input ++ nl) in
    let s := setIndent s in
    if indentCount s <=? 0 then
      let hist := hidepassword (slice (str s) 0 (String.length (str s) - 1)) in
      let s := if (0 <? String.length hist)%nat then AppendHistory s hist else s in
      let s := parseInput s (str s) in
      Running (setStr s "")
    else Running s.

(** One iteration of the [for] loop. *)
Definition step (s : session) (e : event) : outcome :=
  match e with
  | Interrupt => Exited s
  | Closed => Exited s
  | Aborted => receive (resetPrompt s) ""
  | Line input => receive s input
  end.

(** The loop over a sequence of events; it stops at the first [return]. *)
Fixpoint run (s : session) (es : list event) : outcome :=
  match es with
  | [] => Running s
  | e :: es' =>
      match step s e with
      | Running s' => run s' es'
      | Exited s' => Exited s'
      end
  end.

(** The states in which the loop can wait for its next event. *)
Inductive reachable : session -> Prop :=
| reachable_initial : reachable initial
| reachable_step s e s' : reachable s -> step s e = Running s' -> reachable s'.

(** ** Word completion

    [loadedModulesMethods] is a package-level Go map.  A lookup does not
    depend on any order, but [range] visits the entries in an order Go
    leaves unspecified: [rangeOrder] is the order of one traversal, and the
    properties below hold for every listing of the map's entries. *)

Section Completion.

Variable loadedModulesMethods : gmap string (list string).
Variable rangeOrder : list (string * list string).

(** [keywordCompleter] *)
Definition keywordCompleter (line : string) : list string :=
  if Contains line "." then
    let elements := Split line "." in
    match elements with
    | [module; partialMethod] =>
        match loadedModulesMethods !! module with
        | Some methods =>
            flat_map (fun method =>
                        if HasPrefix method partialMethod
                        then [module ++ "." ++ method] else []) methods
        | None => []
        end
    | _ => []
    end
  else
    flat_map (fun '(module, methods) =>
                if String.eqb line module
                then flat_map (fun method => [module ++ "." ++ method]) methods
                else if HasPrefix module line then [module] else [])
             rangeOrder.

Definition byteAt (line : string) (i : nat) (c : ascii) : bool :=
  match String.get i line with
  | Some a => Ascii.eqb a c
  | None => false
  end.

Definition byteIn (line : string) (i : nat) (lo hi : ascii) : bool :=
  match String.get i line with
  | Some a => Ascii.leb lo a && Ascii.leb a hi
  | None => false
  end.

(** The two tests of the scanning loop that [continue]. *)
Definition tokenByte (line : string) (i : nat) : bool :=
  (byteAt line i "." || byteIn line i "a" "z" || byteIn line i "A" "Z")
  || ((3 <=? i)%nat && byteAt line i "3" && byteAt line (i - 3) "w"
      && byteAt line (i - 2) "e" && byteAt line (i - 1) "b").

(** [for i = pos - 1; i > 0; i-- { ... }], started at [i]: the value of
    [i] when the loop is left. *)
Fixpoint scan (line : string) (i : nat) : nat :=
  match i with
  | O => O
  | S j => if tokenByte line i then scan line j else (i + 1)%nat
  end.

(** [apiWordCompleter]; [None] is the run-time panic of an index or a
    slice bound out of range. *)
Definition apiWordCompleter (line : string) (pos : Z)
  : option (string * list string * string) :=
  if (String.length line =? 0)%nat || (pos =? 0) then Some ("", [], "")
  else if (pos <? 0) || (Z.of_nat (String.length line) <? pos) then None
  else
    let pos := Z.to_nat pos in
    let i := scan line (pos - 1) in
    let begin := slice line 0 i in
    let keyword := slice line i pos in
    let end' := slice line pos (String.length line) in
    Some (begin, keywordCompleter keyword, end').

End Completion.

(** The token characters as the specification words them: the identifier
    characters (letters, digits, underscore) and the [.] separator; the
    alias [web3] consists of such characters. *)
Definition specTokenChar (a : ascii) : bool :=
  Ascii.eqb a "." || Ascii.eqb a "_"
  || (Ascii.leb "a" a && Ascii.leb a "z")
  || (Ascii.leb "A" a && Ascii.leb a "Z")
  || (Ascii.leb "0" a && Ascii.leb a "9").

(** The backward scan as the specification words it: from the byte before
    the cursor down to the first byte outside the set; the result is the
    index at which the token starts. *)
Fixpoint specBoundary (line : string) (pos : nat) : nat :=
  match pos with
  | O => O
  | S j =>
      match String.get j line with
      | Some a => if specTokenChar a then specBoundary line j else pos
      | None => pos
      end
  end.

(** ** Frontend hooks *)

Inductive error : Type :=
| EOF
| ErrPromptAborted
| ErrOther (msg : string).

(** [bufio.Reader.ReadString(delim)] over the unread input: the bytes up to
    and including the delimiter, or what is left together with [io.EOF]. *)
Fixpoint ReadString (unread : string) (delim : ascii)
  : string * option error * string :=
  match unread with
  | EmptyString => (EmptyString, Some EOF, EmptyString)
  | String a rest =>
      if Ascii.eqb a delim then (String a EmptyString, None, rest)
      else let '(line, err, rest') := ReadString rest delim in
           (String a line, err, rest')
  end.

(** The terminal without line editing; [r] is its reader's unread input. *)
Record dumbterm : Type := Dumbterm { r : string }.

(** [dumbterm.Prompt] *)
Definition dumbterm_Prompt (t : dumbterm) (p : string)
  : dumbterm * (string * option error) :=
  let '(line, err, rest) := ReadString (r t) LF in
  (Dumbterm rest, (TrimSuffixLF line, err)).

Section Frontend.

(** The embedded [prompter] and the account manager's [Unlock]. *)
Variable P : Type.
Variable Prompt : P -> string -> P * (string * option error).
Variable PasswordPrompt : P -> string -> P * (string * option error).
Variable Unlock : string -> string -> option error.

(** [jsre.ConfirmTransaction]; [NatSpec] is [self.expanse.NatSpec]. *)
Definition ConfirmTransaction (NatSpec : bool) (self : P) (tx : string)
  : P * bool :=
  if NatSpec then
    let '(self, (answer, _)) := Prompt self "Confirm Transaction [y/n]" in
    (self, HasPrefix (Trim answer " ") "y")
  else (self, true).

(** [jsre.UnlockAccount] *)
Definition UnlockAccount (self : P) (addr : string) : P * bool :=
  let '(self, (pass, err)) := PasswordPrompt self "Passphrase: " in
  match err with
  | Some _ => (self, false)
  | None =>
      match Unlock addr pass with
      | Some _ => (self, false)
      | None => (self, true)
      end
  end.

End Frontend.

(** ** The bridge object

    [apiBindings] creates the script object [jeth] and sets two of its
    properties.  [Send] stands for the method [Send] of type [Jeth], package
    [rpc]: it receives the script call and acts on the world outside. *)

Section Bridge.

Variables FunctionCall Value World : Type.
Variable Send : FunctionCall -> World -> World * Value.

Definition object : Type := gmap string (FunctionCall -> World -> World * Value).

(** [jethObj.Set(name, f)] *)
Definition Set_ (obj : object) (name : string)
           (f : FunctionCall -> World -> World * Value) : object :=
  <[name := f]> obj.

(** The object once [apiBindings] has set its properties. *)
Definition jethObj : object :=
  let jethObj : object := ∅ in
  let jethObj := Set_ jethObj "send" Send in
  let jethObj := Set_ jethObj "sendAsync" Send in
  jethObj.

(** A script call [jeth.name(call)]. *)
Definition invoke (name : string) (call : FunctionCall) (w : World)
  : option (World * Value) :=
  match jethObj !! name with
  | Some f => Some (f call w)
  | None => None
  end.

End Bridge.

(** * Notions used in the properties *)

(** The prompt [setIndent] leaves for a depth. *)
Definition promptFor (ic : Z) : string :=
  if ic <=? 0 then "> " else Join (make (ic * 2)) ".." ++ " ".

(** The entries [hidepassword] lets the loop append to the history. *)
Definition recorded (statement : string) : list string :=
  if Regexp.MatchString statement then [] else [statement].

(** What holds of the session whenever the loop waits for an event: the
    buffer is non-empty exactly in continuation, where the depth is that of
    the buffer, and the prompt is the one of the depth. *)
Record waiting (s : session) : Prop := {
  waiting_buffer : str s <> "" <-> 0 < indentCount s;
  waiting_depth : 0 < indentCount s -> indentCount s = depth (str s);
  waiting_prompt : ps1 s = promptFor (indentCount s)
}.

(** The lines the loop does not skip. *)
Definition nonEmpty (l : string) : bool := negb (String.eqb l "").

(** The session after the single line [{]. *)
Definition openBrace : session :=
  {| str := "{" ++ nl; indentCount := 1; ps1 := ".. ";
     history := []; evaluated := [] |}.

(** The buffer the lines build: each line followed by a line feed. *)
Fixpoint joinLines (lines : list string) : string :=
  match lines with
  | [] => ""
  | l :: ls => l ++ nl ++ joinLines ls
  end.

(** The bracket balance of a sequence of lines, and the cumulative balance
    after its first [k] lines. *)
Fixpoint balance (lines : list string) : Z :=
  match lines with
  | [] => 0
  | l :: ls => depth l + balance ls
  end.

Definition balanceAfter (lines : list string) (k : nat) : Z :=
  balance (take k lines).

(** "The cumulative balance is zero only after the final line." *)
Definition zeroOnlyAtEnd (lines : list string) : Prop :=
  (forall k, (0 < k < length lines)%nat -> balanceAfter lines k <> 0) /\
  balanceAfter lines (length lines) = 0.

(** The cumulative balance is strictly positive after every earlier line
    and zero after the final one. *)
Definition positiveUntilEnd (lines : list string) : Prop :=
  (forall k, (0 < k < length lines)%nat -> 0 < balanceAfter lines k) /\
  balanceAfter lines (length lines) = 0.

(** Started in the session [s0], the loop is in continuation, with nothing
    submitted since, after each line but the last, and after the last line
    it has submitted one more statement, all the lines, and waits with an
    empty buffer. *)
Definition staysThenSubmitsFrom (s0 : session) (lines : list string) : Prop :=
  (forall k, (0 < k < length lines)%nat ->
     exists s, run s0 (map Line (take k lines)) = Running s /\
               0 < indentCount s /\ evaluated s = evaluated s0) /\
  (exists s, run s0 (map Line lines) = Running s /\
             evaluated s = (evaluated s0 ++ [joinLines lines])%list /\
             indentCount s <= 0 /\ str s = "").

(** The same for the session just started. *)
Definition staysThenSubmits (lines : list string) : Prop :=
  staysThenSubmitsFrom initial lines.

(** The session after the single line [)]: the statement was submitted and
    the depth is left at [-1]. *)
Definition afterClosingBracket : session :=
  {| str := ""; indentCount := -1; ps1 := "> ";
     history := [")"]; evaluated := [")" ++ nl] |}.

(** The suggestions for a module's methods: [module.method] for each. *)
Definition qualified (module : string) (methods : list string) : list string :=
  map (fun method => module ++ "." ++ method) methods.

(** A suggestion made for a module other than the one typed: the name of
    a module of the catalog that starts with the token. *)
Definition longerModule (catalog : gmap string (list string)) (line : string)
           (suggestion : string) : Prop :=
  suggestion <> line /\ HasPrefix suggestion line = true /\
  is_Some (catalog !! suggestion).

(** A catalog in which one module name is a prefix of another. *)
Definition twoModules : gmap string (list string) :=
  <[ "admin" := ["peers"; "nodeInfo"] ]> {[ "administrator" := ["grant"] ]}.

(** The ASCII letters. *)
Definition isLetter (a : ascii) : bool :=
  (Ascii.leb "a" a && Ascii.leb a "z") || (Ascii.leb "A" a && Ascii.leb a "Z").

(** The byte at index [j] ends the alias [web3]. *)
Definition endsAlias (line : string) (j : nat) : Prop :=
  (3 <= j)%nat /\
  String.get (j - 3) line = Some "w"%char /\
  String.get (j - 2) line = Some "e"%char /\
  String.get (j - 1) line = Some "b"%char /\
  String.get j line = Some "3"%char.

(** The bytes the scan passes over: the [.] separator, the ASCII letters,
    and a [3] that ends the alias [web3]. *)
Definition partOfToken (line : string) (j : nat) : Prop :=
  (exists a, String.get j line = Some a /\ (a = "."%char \/ isLetter a = true))
  \/ endsAlias line j.

(** ** Loading the completion table

    [api.AutoCompletion] belongs to package [rpc/api] and is a parameter
    here.  Indexing a Go map with a key it does not hold gives the zero
    value, for a slice the empty one. *)

Section AutoCompletion.

Variable AutoCompletion : gmap string (list string).

(** [api.AutoCompletion[module]] *)
Definition autoCompletionOf (module : string) : list string :=
  default [] (AutoCompletion !! module).

(** [jsre.loadAutoCompletion]: [current] is the table before the call,
    [supported] the result of [supportedApis] and [order] the order in
    which [range] visits the supported modules. *)
Definition loadAutoCompletion (current : gmap string (list string))
           (supported : gmap string string + error)
           (order : list (string * string)) : gmap string (list string) :=
  match supported with
  | inl _ =>
      foldl (fun table '(module, _) =>
               <[module := autoCompletionOf module]> table)
            ∅ order
  | inr _ => current
  end.

End AutoCompletion.

(** ** Further notions used in the properties *)

(** A statement as the loop hands it to [hidepassword]: the submitted
    buffer without its last byte. *)
Definition chop (code : string) : string :=
  slice code 0 (String.length code - 1).

(** A session with older entries in front of both of its logs. *)
Definition prependLogs (h e : list string) (s : session) : session :=
  {| str := str s; indentCount := indentCount s; ps1 := ps1 s;
     history := h ++ history s; evaluated := e ++ evaluated s |}.

Definition mapOutcome (f : session -> session) (o : outcome) : outcome :=
  match o with
  | Running s => Running (f s)
  | Exited s => Exited (f s)
  end.

(** [n] copies of the two dots of the continuation prompt. *)
Fixpoint dots (n : nat) : string :=
  match n with
  | O => ""
  | S n' => ".." ++ dots n'
  end.

(** [n] spaces. *)
Fixpoint spaces (n : nat) : string :=
  match n with
  | O => ""
  | S n' => String " " (spaces n')
  end.

(** The methods of a list whose name starts with the partial name. *)
Definition startingWith (partialMethod : string) (methods : list string)
  : list string :=
  List.filter (fun method => HasPrefix method partialMethod) methods.

(** What the logs of a waiting session look like. *)
Record logged (s : session) : Prop := {
  logged_clean :
    Forall (fun h => h <> "" /\ Regexp.MatchString h = false) (history s);
  logged_mirror :
    history s = flat_map (fun code => recorded (chop code)) (evaluated s);
  logged_closed :
    Forall (fun code => depth code <= 0 /\
                        exists b, b <> "" /\ code = b ++ nl) (evaluated s)
}.

(** A session after a statement over two lines and a sensitive one. *)
Definition busySession : session :=
  {| str := ""; indentCount := 0; ps1 := "> ";
     history := ["f(" ++ nl ++ "1)"];
     evaluated := ["f(" ++ nl ++ "1)" ++ nl; "personal.newAccount('pw')" ++ nl] |}.

(** ** The completion entry point with the checks of the Go run time

    [apiWordCompleter] once more, with every index expression and every
    slice expression evaluated as the run time evaluates it: [line[i]]
    panics unless [0 <= i < len(line)] and [line[lo:hi]] panics unless
    [0 <= lo <= hi <= len(line)].  A panic is [None]. *)

(** [line[lo:hi]] *)
Definition sliceAt (line : string) (lo hi : Z) : option string :=
  if (0 <=? lo) && (lo <=? hi) && (hi <=? Z.of_nat (String.length line))
  then Some (slice line (Z.to_nat lo) (Z.to_nat hi))
  else None.

(** The two tests of the scanning loop at an index [i > 0], reading
    [line[i]], and [line[i-3]], [line[i-2]], [line[i-1]] only as far as
    the conjunction gets. *)
Definition tokenByteChecked (line : string) (i : nat) : option bool :=
  match String.get i line with
  | None => None
  | Some c =>
      if Ascii.eqb c "." || (Ascii.leb "a" c && Ascii.leb c "z")
         || (Ascii.leb "A" c && Ascii.leb c "Z")
      then Some true
      else if (3 <=? i)%nat && Ascii.eqb c "3" then
        match String.get (i - 3) line with
        | None => None
        | Some w =>
            if Ascii.eqb w "w" then
              match String.get (i - 2) line with
              | None => None
              | Some e =>
                  if Ascii.eqb e "e" then
                    match String.get (i - 1) line with
                    | None => None
                    | Some b => Some (Ascii.eqb b "b")
                    end
                  else Some false
              end
            else Some false
        end
      else Some false
  end.

(** The scanning loop started at an index [i >= 0]. *)
Fixpoint scanChecked (line : string) (i : nat) : option nat :=
  match i with
  | O => Some O
  | S j =>
      match tokenByteChecked line i with
      | None => None
      | Some true => scanChecked line j
      | Some false => Some (i + 1)%nat
      end
  end.

(** [apiWordCompleter] with these checks; for [pos - 1 <= 0] the loop body
    is not entered and [i] stays [pos - 1]. *)
Definition apiWordCompleterChecked
           (catalog : gmap string (list string))
           (order : list (string * list string))
           (line : string) (pos : Z)
  : option (string * list string * string) :=
  if (String.length line =? 0)%nat || (pos =? 0) then Some ("", [], "")
  else
    match (if 0 <? pos - 1
           then option_map Z.of_nat (scanChecked line (Z.to_nat (pos - 1)))
           else Some (pos - 1)) with
    | None => None
    | Some i =>
        match sliceAt line 0 i, sliceAt line i pos,
              sliceAt line pos (Z.of_nat (String.length line)) with
        | Some begin, Some keyword, Some end' =>
            Some (begin, keywordCompleter catalog order keyword, end')
        | _, _, _ => None
        end
    end.

(** * Properties *)

(** ** Sample evaluations *)

Example braces_then_close :
  run initial [Line "{"; Line "}"] =
  Running {| str := ""; indentCount := 0; ps1 := "> ";
             history := ["{" ++ nl ++ "}"]; evaluated := ["{" ++ nl ++ "}" ++ nl] |}.
Proof. reflexivity. Qed.

Example prompt_depth_1 :
  forall s, run initial [Line "{"] = Running s -> ps1 s = ".. ".
Proof. intros s H. inversion H. reflexivity. Qed.

Example complete_admin_st :
  keywordCompleter {[ "admin" := ["startRPC"; "stopRPC"; "peers"] ]} [] "admin.st"
  = ["admin.startRPC"; "admin.stopRPC"].
Proof. vm_compute. reflexivity. Qed.

Example complete_web3 :
  apiWordCompleter ∅ [] "x = web3.e" 10 = Some ("x = ", [], "").
Proof. vm_compute. reflexivity. Qed.

Example complete_underscore :
  apiWordCompleter ∅ [] "my_var" 6 = Some ("my_", [], "").
Proof. vm_compute. reflexivity. Qed.

(** The loop condition is [i > 0]: the byte at index 0 is not examined. *)
Example complete_first_byte :
  apiWordCompleter ∅ [] "(ab" 3 = Some ("", [], "").
Proof. vm_compute. reflexivity. Qed.

(** ** Byte strings *)

Lemma append_nil_r (s : string) : s ++ "" = s.
Proof. induction s as [|a s IH]; simpl; [reflexivity | now rewrite IH]. Qed.

Lemma append_assoc (s t u : string) : (s ++ t) ++ u = s ++ t ++ u.
Proof. induction s as [|a s IH]; simpl; [reflexivity | now rewrite IH]. Qed.

Lemma append_length (s t : string) :
  String.length (s ++ t) = (String.length s + String.length t)%nat.
Proof. induction s as [|a s IH]; simpl; [reflexivity | now rewrite IH]. Qed.

Lemma append_empty (s t : string) : s ++ t = "" -> s = "" /\ t = "".
Proof. destruct s; simpl; [auto | discriminate]. Qed.

Lemma substring_all (s : string) : substring 0 (String.length s) s = s.
Proof. induction s as [|a s IH]; simpl; [reflexivity | now rewrite IH]. Qed.

Lemma substring_prefix (s t : string) :
  substring 0 (String.length s) (s ++ t) = s.
Proof.
  induction s as [|a s IH]; simpl.
  - now destruct t.
  - now rewrite IH.
Qed.

(** The buffer without its last byte, when that byte is the line feed the
    loop has just appended. *)
Lemma slice_drop_nl (s : string) :
  slice (s ++ nl) 0 (String.length (s ++ nl) - 1) = s.
Proof.
  unfold slice. rewrite append_length. simpl.
  replace (String.length s + 1 - 1 - 0)%nat with (String.length s) by lia.
  apply substring_prefix.
Qed.

Lemma Count_app (s t : string) (c : ascii) :
  Count (s ++ t) c = Count s c + Count t c.
Proof. induction s as [|a s IH]; simpl; [reflexivity | rewrite IH; lia]. Qed.

Lemma depth_app (s t : string) : depth (s ++ t) = depth s + depth t.
Proof. unfold depth. rewrite !Count_app. lia. Qed.

Lemma depth_nl : depth nl = 0.
Proof. reflexivity. Qed.

Lemma depth_line (buf input : string) :
  depth (buf ++ input ++ nl) = depth buf + depth input.
Proof. rewrite !depth_app, depth_nl. lia. Qed.

(** ** One received line *)

(** A line that is neither empty nor an [exit] typed at depth [<= 0] is
    appended to the buffer; the buffer is then kept or submitted whole. *)
Lemma receive_line (s : session) (input : string) :
  input <> "" ->
  ~ (indentCount s <= 0 /\ input = "exit") ->
  receive s input =
  let buf := str s ++ input ++ nl in
  if depth buf <=? 0
  then Running {| str := ""; indentCount := depth buf; ps1 := "> ";
                  history := history s ++ recorded (str s ++ input);
                  evaluated := evaluated s ++ [buf] |}
  else Running {| str := buf; indentCount := depth buf;
                  ps1 := promptFor (depth buf);
                  history := history s; evaluated := evaluated s |}.
Proof.
  intros Hne Hexit. unfold receive.
  assert (Hx : (indentCount s <=? 0) && String.eqb input "exit" = false).
  { apply andb_false_iff.
    destruct (Z.leb_spec (indentCount s) 0) as [Hle|Hgt]; [right | now left].
    apply String.eqb_neq. tauto. }
  rewrite Hx.
  replace (String.eqb input "") with false
    by (symmetry; now apply String.eqb_neq).
  unfold setIndent, setStr, promptFor; cbn [str indentCount ps1 history evaluated].
  destruct (Z.leb_spec (depth (str s ++ input ++ nl)) 0) as [Hd|Hd]; [|reflexivity].
  rewrite <- append_assoc, slice_drop_nl.
  unfold hidepassword, recorded, passwordRepl.
  destruct (Regexp.MatchString (str s ++ input)) eqn:Hm.
  - unfold parseInput; cbn [str indentCount ps1 history evaluated String.length Nat.ltb Nat.leb].
    now rewrite app_nil_r, append_assoc.
  - rewrite append_length.
    replace (0 <? String.length (str s) + String.length input)%nat with true.
    + unfold parseInput, AppendHistory; cbn [str indentCount ps1 history evaluated].
      now rewrite append_assoc.
    + symmetry; apply Nat.ltb_lt. destruct input; [congruence | simpl; lia].
Qed.

Lemma receive_empty (s : session) : receive s "" = Running s.
Proof. unfold receive. simpl. now rewrite andb_false_r. Qed.

Lemma receive_exit (s : session) (input : string) :
  (exists s', receive s input = Exited s') <->
  input = "exit" /\ indentCount s <= 0.
Proof.
  unfold receive.
  destruct ((indentCount s <=? 0) && String.eqb input "exit") eqn:E.
  - apply andb_true_iff in E as [Hle Hx].
    apply Z.leb_le in Hle. apply String.eqb_eq in Hx.
    split; [tauto | intros _; now exists s].
  - split.
    + intros [s' H]. destruct (String.eqb input ""); [discriminate|].
      match type of H with
      | (if ?c then _ else _) = _ => destruct c; discriminate
      end.
    + intros [Hx Hle]. apply andb_false_iff in E as [E|E].
      * apply Z.leb_gt in E. lia.
      * apply String.eqb_neq in E. tauto.
Qed.

Lemma promptFor_idle (ic : Z) : ic <= 0 -> promptFor ic = "> ".
Proof. intros H. unfold promptFor. now destruct (Z.leb_spec ic 0); [|lia]. Qed.

(** ** What holds whenever the loop waits *)

Lemma waiting_initial : waiting initial.
Proof.
  split; simpl; [|lia|reflexivity].
  split; [congruence | lia].
Qed.

Lemma waiting_resetPrompt (s : session) : waiting (resetPrompt s).
Proof.
  split; simpl; [|lia|reflexivity].
  split; [congruence | lia].
Qed.

(** After a line that was appended, the three facts hold whatever the
    state before was: [setIndent] recomputes the depth from the whole
    buffer and the buffer is emptied exactly when that depth is [<= 0]. *)
Lemma waiting_receive (s s' : session) (input : string) :
  waiting s -> receive s input = Running s' -> waiting s'.
Proof.
  intros Hs H.
  destruct (String.eqb_spec input "") as [->|Hne].
  { rewrite receive_empty in H. now inversion H; subst. }
  destruct (Z.leb_spec (indentCount s) 0) as [Hle|Hgt];
    [destruct (String.eqb_spec input "exit") as [->|Hx]|].
  - assert (He : exists x, receive s "exit" = Exited x)
      by (apply receive_exit; tauto).
    destruct He as [x He]. congruence.
  - rewrite receive_line in H by tauto. cbv zeta in H.
    destruct (Z.leb_spec (depth (str s ++ input ++ nl)) 0) as [Hd|Hd];
      inversion H; subst; clear H; split; simpl; try lia.
    + split; [congruence | lia].
    + symmetry. now apply promptFor_idle.
    + split; [lia | intros _ E]. apply append_empty in E as [_ E].
      apply append_empty in E as [_ E]. discriminate.
    + reflexivity.
  - rewrite receive_line in H by (try tauto; intros [? _]; lia). cbv zeta in H.
    destruct (Z.leb_spec (depth (str s ++ input ++ nl)) 0) as [Hd|Hd];
      inversion H; subst; clear H; split; simpl; try lia.
    + split; [congruence | lia].
    + symmetry. now apply promptFor_idle.
    + split; [lia | intros _ E]. apply append_empty in E as [_ E].
      apply append_empty in E as [_ E]. discriminate.
    + reflexivity.
Qed.

Lemma waiting_step (s s' : session) (e : event) :
  waiting s -> step s e = Running s' -> waiting s'.
Proof.
  intros Hs H. destruct e as [input| | |]; simpl in H; try discriminate.
  - eapply waiting_receive; eauto.
  - eapply waiting_receive; [apply waiting_resetPrompt | exact H].
Qed.

Lemma reachable_waiting (s : session) : reachable s -> waiting s.
Proof.
  induction 1 as [|s e s' _ IH Hstep].
  - apply waiting_initial.
  - eapply waiting_step; eauto.
Qed.

(** ** Runs of the loop *)

Lemma run_app (s : session) (es1 es2 : list event) :
  run s (es1 ++ es2) =
  match run s es1 with
  | Running s' => run s' es2
  | Exited s' => Exited s'
  end.
Proof.
  revert s. induction es1 as [|e es1 IH]; intros s; simpl; [reflexivity|].
  destruct (step s e); [apply IH | reflexivity].
Qed.

Lemma reachable_run (s s' : session) (es : list event) :
  reachable s -> run s es = Running s' -> reachable s'.
Proof.
  revert s. induction es as [|e es IH]; intros s Hs H; simpl in H.
  - now inversion H; subst.
  - destruct (step s e) as [s1|s1] eqn:E; [|discriminate].
    eapply IH; [|exact H]. econstructor; eauto.
Qed.

(** ** History of completed statements *)

(** C1, as the code has it.  When a received line completes a statement
    (the depth of the buffer is [<= 0]), the whole buffer is evaluated and
    the statement, the buffer without its final line feed, goes through
    [hidepassword]: if it matches the password pattern the replacement is
    the empty string and, being empty, it is not appended to the history,
    which stays as it was; otherwise the statement is appended verbatim. *)
Theorem completed_statement_history (s : session) (input : string) :
  input <> "" ->
  ~ (indentCount s <= 0 /\ input = "exit") ->
  depth (str s ++ input ++ nl) <= 0 ->
  exists s',
    step s (Line input) = Running s' /\
    str s' = "" /\
    evaluated s' = (evaluated s ++ [(str s ++ input ++ nl)%string])%list /\
    (Regexp.MatchString (str s ++ input) = true ->
       hidepassword (str s ++ input) = "" /\ history s' = history s) /\
    (Regexp.MatchString (str s ++ input) = false ->
       hidepassword (str s ++ input) = str s ++ input /\
       history s' = (history s ++ [(str s ++ input)%string])%list).
Proof.
  intros Hne Hexit Hd. simpl. rewrite receive_line by assumption. cbv zeta.
  destruct (Z.leb_spec (depth (str s ++ input ++ nl)) 0) as [_|Hgt]; [|lia].
  eexists; split; [reflexivity|]. simpl.
  unfold recorded, hidepassword, passwordRepl.
  split; [reflexivity|]. split; [reflexivity|].
  split; intros ->; (split; [reflexivity|]); [apply app_nil_r | reflexivity].
Qed.

Lemma completed_statement_history_witness :
  "exp.blockNumber" <> "" /\
  depth (str initial ++ "exp.blockNumber" ++ nl) <= 0 /\
  exists s',
    step initial (Line "exp.blockNumber") = Running s' /\
    str s' = "" /\
    evaluated s' = (evaluated initial ++ [(str initial ++ "exp.blockNumber" ++ nl)%string])%list /\
    (Regexp.MatchString (str initial ++ "exp.blockNumber") = true ->
       hidepassword (str initial ++ "exp.blockNumber") = "" /\
       history s' = history initial) /\
    (Regexp.MatchString (str initial ++ "exp.blockNumber") = false ->
       hidepassword (str initial ++ "exp.blockNumber") = str initial ++ "exp.blockNumber" /\
       history s' = (history initial ++ [(str initial ++ "exp.blockNumber")%string])%list).
Proof.
  split; [discriminate|]. split; [vm_compute; discriminate|].
  apply (completed_statement_history initial "exp.blockNumber").
  - discriminate.
  - intros [_ H]; discriminate.
  - vm_compute; discriminate.
Defined.

(** C1 as it is worded fails: a statement that unlocks an account matches
    the pattern and is evaluated, and the history receives no entry for it,
    not an empty one. *)
Lemma sensitive_statement_leaves_no_entry :
  let statement := "personal.unlockAccount(exp.accounts[0], 'hunter2')" in
  Regexp.MatchString statement = true /\
  exists s,
    step initial (Line statement) = Running s /\
    evaluated s = [statement ++ nl] /\
    history s = [] /\
    history s <> (history initial ++ [""])%list.
Proof.
  cbv zeta. split; [vm_compute; reflexivity|].
  eexists. split; [vm_compute; reflexivity|].
  repeat split; simpl; discriminate.
Qed.

(** ** The empty line *)

(** C9.  An empty line changes nothing in any state, whatever the depth:
    buffer, depth, prompt, history and evaluated statements stay as they
    are; a run over lines is the run over its non-empty lines, so the
    submitted statements are the same. *)
Theorem empty_line_ignored :
  (forall s : session, step s (Line "") = Running s) /\
  (forall (s : session) (lines : list string),
      run s (map Line lines) = run s (map Line (List.filter nonEmpty lines))).
Proof.
  split; [intros s; apply receive_empty|].
  intros s lines. revert s.
  induction lines as [|l lines IH]; intros s; [reflexivity|].
  cbn [List.filter map]. unfold nonEmpty at 1.
  destruct (String.eqb_spec l "") as [->|Hne]; cbn [negb map run].
  - change (step s (Line "")) with (receive s ""). rewrite receive_empty. apply IH.
  - destruct (step s (Line l)); [apply IH | reflexivity].
Qed.

Example blank_line_inside_statement :
  run initial [Line "f("; Line ""; Line "1)"] = run initial [Line "f("; Line "1)"].
Proof. reflexivity. Qed.

(** ** Buffer and depth *)

Lemma reachable_openBrace : reachable openBrace.
Proof. apply (reachable_step initial (Line "{")); [constructor | reflexivity]. Defined.

(** C10.  Whenever the loop waits for its next event the buffer is
    non-empty exactly when the depth is strictly positive, so at depth
    [<= 0] the buffer is empty; and whatever event comes next, the same
    holds again when the loop waits after it. *)
Theorem buffer_nonempty_iff_continuation (s : session) :
  reachable s ->
  (str s <> "" <-> 0 < indentCount s) /\
  (indentCount s <= 0 -> str s = "") /\
  (forall (e : event) (s' : session),
      step s e = Running s' -> (str s' <> "" <-> 0 < indentCount s')).
Proof.
  intros Hs. pose proof (reachable_waiting s Hs) as [Hb _ _].
  split; [exact Hb|]. split.
  - intros Hle. destruct (String.eqb_spec (str s) "") as [E|E]; [exact E|].
    apply Hb in E. lia.
  - intros e s' Hstep.
    apply (waiting_buffer s'), (waiting_step s s' e); [|exact Hstep].
    now apply reachable_waiting.
Qed.

Lemma buffer_nonempty_iff_continuation_witness :
  reachable openBrace /\
  (str openBrace <> "" <-> 0 < indentCount openBrace) /\
  (indentCount openBrace <= 0 -> str openBrace = "") /\
  (forall (e : event) (s' : session),
      step openBrace e = Running s' -> (str s' <> "" <-> 0 < indentCount s')).
Proof.
  split; [exact reachable_openBrace|].
  apply (buffer_nonempty_iff_continuation openBrace). exact reachable_openBrace.
Defined.

(** ** The line [exit] *)

(** C5.  In a state in which the loop can wait, a received line ends the
    session exactly when it is [exit], the depth is [<= 0] and the buffer is
    empty; in every other such state the line [exit] is appended to the
    buffer like any other line, and depth and prompt stay as they are. *)
Theorem exit_ends_session_only_when_idle (s : session) (input : string) :
  reachable s ->
  ((exists s', step s (Line input) = Exited s') <->
     input = "exit" /\ indentCount s <= 0 /\ str s = "") /\
  (~ (indentCount s <= 0 /\ str s = "") ->
     step s (Line "exit") = Running (setStr s (str s ++ "exit" ++ nl))).
Proof.
  intros Hs. pose proof (reachable_waiting s Hs) as [Hb Hdep Hps].
  assert (Hidle : indentCount s <= 0 -> str s = "").
  { intros Hle. destruct (String.eqb_spec (str s) "") as [E|E]; [exact E|].
    apply Hb in E. lia. }
  split.
  - change (step s (Line input)) with (receive s input).
    rewrite receive_exit. intuition.
  - intros Hbusy.
    assert (Hpos : 0 < indentCount s).
    { destruct (Z.leb_spec (indentCount s) 0) as [Hle|Hgt]; [|exact Hgt].
      exfalso. apply Hbusy. split; [exact Hle | now apply Hidle]. }
    change (step s (Line "exit")) with (receive s "exit").
    rewrite receive_line by (try discriminate; intros [? _]; lia). cbv zeta.
    assert (Hd : depth (str s ++ "exit" ++ nl) = indentCount s).
    { rewrite depth_line, <- Hdep by exact Hpos.
      change (depth "exit") with 0. lia. }
    rewrite Hd. destruct (Z.leb_spec (indentCount s) 0) as [Hle|_]; [lia|].
    unfold setStr. now rewrite <- Hps.
Qed.

Lemma exit_ends_session_only_when_idle_witness :
  reachable openBrace /\
  ((exists s', step openBrace (Line "exit") = Exited s') <->
     "exit" = "exit" /\ indentCount openBrace <= 0 /\ str openBrace = "") /\
  (~ (indentCount openBrace <= 0 /\ str openBrace = "") ->
     step openBrace (Line "exit")
     = Running (setStr openBrace (str openBrace ++ "exit" ++ nl))).
Proof.
  split; [exact reachable_openBrace|].
  apply (exit_ends_session_only_when_idle openBrace "exit").
  exact reachable_openBrace.
Defined.

Example exit_when_idle : step initial (Line "exit") = Exited initial.
Proof. reflexivity. Qed.

Example exit_inside_statement :
  run initial [Line "{"; Line "exit"; Line "}"] =
  Running {| str := ""; indentCount := 0; ps1 := "> ";
             history := ["{" ++ nl ++ "exit" ++ nl ++ "}"];
             evaluated := ["{" ++ nl ++ "exit" ++ nl ++ "}" ++ nl] |}.
Proof. reflexivity. Qed.

(** ** Statements over several lines *)

Lemma depth_joinLines (lines : list string) : depth (joinLines lines) = balance lines.
Proof.
  induction lines as [|l ls IH]; [reflexivity|].
  cbn [joinLines balance]. rewrite !depth_app, depth_nl, IH. lia.
Qed.

Lemma joinLines_app (ls1 ls2 : list string) :
  joinLines (ls1 ++ ls2) = joinLines ls1 ++ joinLines ls2.
Proof.
  induction ls1 as [|l ls1 IH]; [reflexivity|].
  cbn [joinLines app]. now rewrite IH, !append_assoc.
Qed.

(** While every cumulative depth is positive the loop only appends. *)
Lemma run_pending (lines : list string) :
  forall s : session,
    Forall (fun l => l <> "") lines ->
    (forall k, (0 < k <= length lines)%nat ->
               0 < depth (str s) + balanceAfter lines k) ->
    (indentCount s <= 0 -> hd "" lines <> "exit") ->
    exists s',
      run s (map Line lines) = Running s' /\
      str s' = str s ++ joinLines lines /\
      evaluated s' = evaluated s /\ history s' = history s /\
      (lines <> [] -> 0 < indentCount s').
Proof.
  induction lines as [|l ls IH]; intros s Hne Hpos Hexit.
  - exists s. simpl. rewrite append_nil_r. repeat split; congruence.
  - inversion Hne as [|? ? Hl Hls]; subst.
    assert (Hd : 0 < depth (str s ++ l ++ nl)).
    { rewrite depth_line. specialize (Hpos 1%nat).
      unfold balanceAfter in Hpos. simpl in Hpos. lia. }
    assert (Hstep : step s (Line l) =
                    Running {| str := str s ++ l ++ nl;
                               indentCount := depth (str s ++ l ++ nl);
                               ps1 := promptFor (depth (str s ++ l ++ nl));
                               history := history s; evaluated := evaluated s |}).
    { simpl. rewrite receive_line; [|exact Hl|].
      - cbv zeta. destruct (Z.leb_spec (depth (str s ++ l ++ nl)) 0); [lia|reflexivity].
      - intros [Hle Hx]. now apply Hexit. }
    set (s1 := {| str := str s ++ l ++ nl;
                  indentCount := depth (str s ++ l ++ nl);
                  ps1 := promptFor (depth (str s ++ l ++ nl));
                  history := history s; evaluated := evaluated s |}) in *.
    destruct (IH s1 Hls) as (s' & Hrun & Hstr & Hev & Hhist & Hic).
    + intros k Hk. subst s1. cbn [str]. rewrite depth_line.
      specialize (Hpos (S k)). unfold balanceAfter in *. simpl in Hpos. lia.
    + subst s1. cbn [indentCount]. lia.
    + subst s1. exists s'. cbn [map run]. rewrite Hstep.
      split; [exact Hrun|]. cbn [str evaluated history] in *.
      split; [|split; [exact Hev | split; [exact Hhist|]]].
      * rewrite Hstr. cbn [joinLines]. now rewrite !append_assoc.
      * intros _. destruct ls as [|l' ls'].
        -- simpl in Hrun. inversion Hrun; subst. exact Hd.
        -- apply Hic. discriminate.
Qed.

Lemma balanceAfter_take (lines : list string) (j k : nat) :
  (j <= k)%nat -> balanceAfter (take k lines) j = balanceAfter lines j.
Proof.
  intros Hjk. unfold balanceAfter. rewrite take_take.
  now replace (j `min` k)%nat with j by lia.
Qed.

(** An [exit] in front of further lines leaves the balance at zero. *)
Lemma first_line_not_exit (lines : list string) :
  (forall k, (0 < k < length lines)%nat -> 0 < balanceAfter lines k) ->
  (2 <= length lines)%nat -> hd "" lines <> "exit".
Proof.
  intros Hpos Hlen. destruct lines as [|l ls]; [discriminate|].
  simpl. intros ->. specialize (Hpos 1%nat). simpl in Hlen.
  unfold balanceAfter in Hpos. simpl in Hpos.
  change (depth "exit") with 0 in Hpos. lia.
Qed.

Lemma run_prefix (s0 : session) (lines : list string) (k : nat) :
  str s0 = "" ->
  Forall (fun l => l <> "") lines ->
  (forall j, (0 < j < length lines)%nat -> 0 < balanceAfter lines j) ->
  (k < length lines)%nat ->
  exists s,
    run s0 (map Line (take k lines)) = Running s /\
    str s = joinLines (take k lines) /\
    evaluated s = evaluated s0 /\ history s = history s0 /\
    ((0 < k)%nat -> 0 < indentCount s).
Proof.
  intros Hstr0 Hne Hpos Hk.
  destruct (run_pending (take k lines) s0) as (s & Hrun & Hstr & Hev & Hh & Hic).
  - now apply Forall_take.
  - intros j Hj. rewrite length_take in Hj.
    rewrite balanceAfter_take, Hstr0 by lia.
    change (depth "") with 0. rewrite Z.add_0_l. apply Hpos. lia.
  - intros _. destruct k as [|k]; [rewrite take_0; discriminate|].
    destruct lines as [|l ls]; [simpl in Hk; lia|].
    change (hd "" (take (S k) (l :: ls))) with (hd "" (l :: ls)).
    apply first_line_not_exit; [exact Hpos | simpl in *; lia].
  - exists s. rewrite Hstr0 in Hstr. repeat split; try assumption.
    intros Hk0. apply Hic. destruct lines; [simpl in Hk; lia|].
    destruct k; [lia | discriminate].
Qed.

(** C2, as the code has it.  Take a session whose buffer is empty, as it
    is whenever the loop waits at depth [<= 0], and a non-empty sequence of
    non-empty lines whose cumulative bracket balance is strictly positive
    after every line but the last and zero after the last; at depth [<= 0]
    the sequence is not to be the single line [exit].  Then the loop is in
    continuation after each earlier line, with nothing submitted, and
    submits the whole buffer, the lines each followed by a line feed,
    once, upon the final line.  This holds for the first statement of a
    session and for every later one. *)
Theorem balanced_statement_submitted_once (s0 : session) (lines : list string) :
  str s0 = "" ->
  lines <> [] ->
  (indentCount s0 <= 0 -> lines <> ["exit"]) ->
  Forall (fun l => l <> "") lines ->
  positiveUntilEnd lines ->
  staysThenSubmitsFrom s0 lines.
Proof.
  intros Hstr0 Hnil Hexit Hne [Hpos Hzero]. split.
  - intros k [Hk0 Hk].
    destruct (run_prefix s0 lines k Hstr0 Hne Hpos Hk)
      as (s & Hrun & _ & Hev & _ & Hic).
    exists s. auto.
  - destruct (exists_last Hnil) as (earlier & last & ->).
    destruct (run_prefix s0 (earlier ++ [last]) (length earlier) Hstr0 Hne Hpos)
      as (s & Hrun & Hstr & Hev & Hhist & Hic).
    { rewrite length_app. simpl. lia. }
    rewrite take_app_length in Hrun, Hstr.
    apply Forall_app in Hne as [_ Hlast].
    inversion Hlast as [|? ? Hl _]; subst.
    rewrite map_app, run_app, Hrun. cbn [map run step].
    rewrite receive_line; [|exact Hl|].
    + cbv zeta.
      assert (Hbuf : str s ++ last ++ nl = joinLines (earlier ++ [last])).
      { rewrite Hstr, joinLines_app. cbn [joinLines]. now rewrite append_nil_r. }
      rewrite Hbuf, depth_joinLines.
      unfold balanceAfter in Hzero.
      rewrite firstn_all in Hzero.
      rewrite Hzero. cbn [Z.leb Z.compare].
      eexists; split; [reflexivity|]. cbn [evaluated indentCount str].
      rewrite Hev. split; [reflexivity|]. split; [lia | reflexivity].
    + intros [Hle Hx]. destruct earlier as [|l0 earlier'].
      * cbn [map run] in Hrun. inversion Hrun; subst s.
        apply (Hexit Hle). now subst.
      * assert (0 < indentCount s) by (apply Hic; simpl; lia). lia.
Qed.

Lemma balanced_statement_submitted_once_witness :
  str afterClosingBracket = "" /\
  ["if (x) {"; "f(x)"; "}"] <> [] /\
  (indentCount afterClosingBracket <= 0 -> ["if (x) {"; "f(x)"; "}"] <> ["exit"]) /\
  Forall (fun l => l <> "") ["if (x) {"; "f(x)"; "}"] /\
  positiveUntilEnd ["if (x) {"; "f(x)"; "}"] /\
  staysThenSubmitsFrom afterClosingBracket ["if (x) {"; "f(x)"; "}"].
Proof.
  assert (H0 : str afterClosingBracket = "") by reflexivity.
  assert (H1 : ["if (x) {"; "f(x)"; "}"] <> []) by discriminate.
  assert (H2 : indentCount afterClosingBracket <= 0 ->
               ["if (x) {"; "f(x)"; "}"] <> ["exit"]) by (intros _; discriminate).
  assert (H3 : Forall (fun l => l <> "") ["if (x) {"; "f(x)"; "}"])
    by (repeat constructor; discriminate).
  assert (H4 : positiveUntilEnd ["if (x) {"; "f(x)"; "}"]).
  { split; [|reflexivity]. intros k [Hk0 Hk]. simpl in Hk.
    destruct k as [|[|[|k]]]; try lia; vm_compute; reflexivity. }
  repeat (split; [assumption|]).
  exact (balanced_statement_submitted_once afterClosingBracket _ H0 H1 H2 H3 H4).
Defined.

(** C2 as it is worded fails: the balance may be non-zero by being
    negative.  After the line [)] the balance is [-1]; the loop submits at
    once and is not in continuation, and the second line, which brings the
    balance to zero, opens a statement instead of closing one. *)
Lemma closing_bracket_submits_early :
  Forall (fun l => l <> "") [")"; "("] /\
  zeroOnlyAtEnd [")"; "("] /\
  ~ staysThenSubmits [")"; "("].
Proof.
  split; [repeat constructor; discriminate|]. split.
  - split; [|reflexivity]. intros k [Hk0 Hk]. simpl in Hk.
    destruct k as [|[|k]]; try lia. vm_compute. discriminate.
  - intros [H _]. destruct (H 1%nat) as (s & Hrun & Hpos & _).
    + simpl. lia.
    + vm_compute in Hrun. inversion Hrun; subst. simpl in Hpos. lia.
Qed.

(** The single line [exit] has balance zero and ends the session; nothing
    is submitted. *)
Lemma exit_line_is_not_submitted :
  positiveUntilEnd ["exit"] /\ ~ staysThenSubmits ["exit"].
Proof.
  split.
  - split; [|reflexivity]. intros k [Hk0 Hk]. simpl in Hk. lia.
  - intros [_ (s & Hrun & _)]. vm_compute in Hrun. discriminate.
Qed.

(** ** The two entry points of the bridge *)

Section BridgeFacts.

Context {FunctionCall Value World : Type}.
Variable Send : FunctionCall -> World -> World * Value.

Lemma jethObj_send : jethObj _ _ _ Send !! "send" = Some Send.
Proof.
  unfold jethObj, Set_, object. cbv zeta.
  rewrite lookup_insert_ne by discriminate. apply lookup_insert_eq.
Qed.

Lemma jethObj_sendAsync : jethObj _ _ _ Send !! "sendAsync" = Some Send.
Proof. unfold jethObj, Set_, object. cbv zeta. apply lookup_insert_eq. Qed.

End BridgeFacts.

(** C7.  [apiBindings] binds the properties [send] and [sendAsync] of the
    bridge object to one and the same function, so a script call through
    either of them gives the same result and the same effect, for every
    call and in every state of the world. *)
Theorem send_and_sendAsync_agree
  (FunctionCall Value World : Type)
  (Send : FunctionCall -> World -> World * Value)
  (call : FunctionCall) (w : World) :
  jethObj _ _ _ Send !! "send" = jethObj _ _ _ Send !! "sendAsync" /\
  invoke _ _ _ Send "send" call w = invoke _ _ _ Send "sendAsync" call w /\
  invoke _ _ _ Send "sendAsync" call w = Some (Send call w).
Proof.
  unfold invoke. rewrite jethObj_send, jethObj_sendAsync. auto.
Qed.

(** ** Confirming a transaction *)

Section FrontendFacts.

Context {P : Type}.
Variable Prompt : P -> string -> P * (string * option error).
Variable PasswordPrompt : P -> string -> P * (string * option error).
Variable Unlock : string -> string -> option error.

(** With NatSpec disabled the transaction is approved and the prompter is
    not used. *)
Lemma ConfirmTransaction_disabled (self : P) (tx : string) :
  ConfirmTransaction P Prompt false self tx = (self, true).
Proof. reflexivity. Qed.

(** With NatSpec enabled the verdict is read off the answer alone. *)
Lemma ConfirmTransaction_enabled (self self' : P) (tx answer : string)
      (err : option error) :
  Prompt self "Confirm Transaction [y/n]" = (self', (answer, err)) ->
  ConfirmTransaction P Prompt true self tx
  = (self', HasPrefix (Trim answer " ") "y").
Proof. intros H. unfold ConfirmTransaction. now rewrite H. Qed.

(** [UnlockAccount] denies when its prompt fails. *)
Lemma UnlockAccount_read_error (self self' : P) (addr pass : string)
      (e : error) :
  PasswordPrompt self "Passphrase: " = (self', (pass, Some e)) ->
  UnlockAccount P PasswordPrompt Unlock self addr = (self', false).
Proof. intros H. unfold UnlockAccount. now rewrite H. Qed.

End FrontendFacts.

(** C6 at an input on which it fails.  NatSpec is enabled, the terminal is
    the plain one and its input ends after the byte [y], with no line
    feed: [Prompt] returns the answer [y] together with the error [io.EOF],
    and [ConfirmTransaction], which drops the error, approves. *)
Theorem ConfirmTransaction_approves_on_read_error :
  dumbterm_Prompt (Dumbterm "y") "Confirm Transaction [y/n]"
  = (Dumbterm "", ("y", Some EOF)) /\
  ConfirmTransaction dumbterm dumbterm_Prompt true (Dumbterm "y") "0xf00d"
  = (Dumbterm "", true).
Proof. split; reflexivity. Qed.

Example confirm_yes :
  ConfirmTransaction dumbterm dumbterm_Prompt true
    (Dumbterm ("  yes " ++ nl ++ "rest")) "0xf00d" = (Dumbterm "rest", true).
Proof. reflexivity. Qed.

Example confirm_no :
  ConfirmTransaction dumbterm dumbterm_Prompt true
    (Dumbterm ("n" ++ nl)) "0xf00d" = (Dumbterm "", false).
Proof. reflexivity. Qed.

Example confirm_end_of_input :
  ConfirmTransaction dumbterm dumbterm_Prompt true (Dumbterm "") "0xf00d"
  = (Dumbterm "", false).
Proof. reflexivity. Qed.

(** ** Completion *)

(** C8.  When the catalog maps [admin] to [startRPC], [stopRPC], [peers],
    the keyword completer answers [admin.st] with [admin.startRPC] and
    [admin.stopRPC], in this order and nothing else, so without
    [admin.peers]; and the completion entry point has no suggestion for an
    empty line or for a cursor at position 0. *)
Theorem complete_admin_st_exactly
  (catalog : gmap string (list string)) (order : list (string * list string)) :
  catalog !! "admin" = Some ["startRPC"; "stopRPC"; "peers"] ->
  keywordCompleter catalog order "admin.st" = ["admin.startRPC"; "admin.stopRPC"] /\
  ~ In "admin.peers" (keywordCompleter catalog order "admin.st") /\
  (forall pos : Z, apiWordCompleter catalog order "" pos = Some ("", [], "")) /\
  (forall line : string, apiWordCompleter catalog order line 0 = Some ("", [], "")).
Proof.
  intros Hadmin.
  assert (E : keywordCompleter catalog order "admin.st"
              = ["admin.startRPC"; "admin.stopRPC"]).
  { unfold keywordCompleter.
    change (Contains "admin.st" ".") with true.
    change (Split "admin.st" ".") with ["admin"; "st"].
    cbv iota. rewrite Hadmin. reflexivity. }
  rewrite E. split; [reflexivity|]. split.
  - simpl. intros [H|[H|[]]]; discriminate.
  - split.
    + intros pos. reflexivity.
    + intros line. unfold apiWordCompleter.
      now rewrite orb_true_r.
Qed.

Lemma complete_admin_st_exactly_witness :
  ({[ "admin" := ["startRPC"; "stopRPC"; "peers"] ]} : gmap string (list string))
    !! "admin" = Some ["startRPC"; "stopRPC"; "peers"] /\
  keywordCompleter {[ "admin" := ["startRPC"; "stopRPC"; "peers"] ]} [] "admin.st"
  = ["admin.startRPC"; "admin.stopRPC"] /\
  ~ In "admin.peers"
       (keywordCompleter {[ "admin" := ["startRPC"; "stopRPC"; "peers"] ]} [] "admin.st") /\
  (forall pos : Z,
      apiWordCompleter {[ "admin" := ["startRPC"; "stopRPC"; "peers"] ]} [] "" pos
      = Some ("", [], "")) /\
  (forall line : string,
      apiWordCompleter {[ "admin" := ["startRPC"; "stopRPC"; "peers"] ]} [] line 0
      = Some ("", [], "")).
Proof.
  split; [reflexivity|].
  apply (complete_admin_st_exactly
           {[ "admin" := ["startRPC"; "stopRPC"; "peers"] ]} []).
  reflexivity.
Defined.

Lemma flat_map_singleton {A B : Type} (f : A -> B) (l : list A) :
  flat_map (fun x => [f x]) l = map f l.
Proof. induction l as [|x l IH]; simpl; [reflexivity | now rewrite IH]. Qed.

Lemma keywordCompleter_no_dot (catalog : gmap string (list string))
      (order : list (string * list string)) (line : string) :
  Contains line "." = false ->
  keywordCompleter catalog order line =
  flat_map (fun '(module, methods) =>
              if String.eqb line module
              then flat_map (fun method => [module ++ "." ++ method]) methods
              else if HasPrefix module line then [module] else [])
           order.
Proof. intros H. unfold keywordCompleter. now rewrite H. Qed.

Lemma other_entries (catalog : gmap string (list string)) (line : string)
      (entries : list (string * list string)) :
  (forall module methods,
      In (module, methods) entries ->
      module <> line /\ catalog !! module = Some methods) ->
  Forall (longerModule catalog line)
         (flat_map (fun '(module, methods) =>
                      if String.eqb line module
                      then flat_map (fun method => [module ++ "." ++ method]) methods
                      else if HasPrefix module line then [module] else [])
                   entries).
Proof.
  induction entries as [|[module methods] entries IH]; intros H; simpl.
  - constructor.
  - destruct (H module methods (or_introl eq_refl)) as [Hne Hlook].
    apply Forall_app. split; [|apply IH; intros; apply H; now right].
    destruct (String.eqb_spec line module) as [->|_]; [congruence|].
    destruct (HasPrefix module line) eqn:Hp; constructor; [|constructor].
    repeat split; [exact Hne | exact Hp | now exists methods].
Qed.

(** C4, as the code has it.  For a token without [.] that is the name of a
    module of the catalog, the suggestions contain every method of that
    module, in the order of its method list, each rendered with the module
    prefix as [module.method]; any other suggestion is the name of another
    module that starts with the token.  This holds in whatever order the
    entries of the catalog are visited. *)
Theorem complete_module_name
  (catalog : gmap string (list string)) (order : list (string * list string))
  (line : string) (methods : list string) :
  order ≡ₚ map_to_list catalog ->
  Contains line "." = false ->
  catalog !! line = Some methods ->
  exists before after : list string,
    keywordCompleter catalog order line
    = (before ++ qualified line methods ++ after)%list /\
    Forall (longerModule catalog line) (before ++ after)%list.
Proof.
  intros Horder Hdot Hline.
  assert (Hin : (line, methods) ∈ order).
  { rewrite Horder. now apply elem_of_map_to_list. }
  assert (Hnodup : NoDup (order.*1)).
  { rewrite Horder. apply NoDup_fst_map_to_list. }
  assert (Hcat : forall module ms, (module, ms) ∈ order -> catalog !! module = Some ms).
  { intros module ms Hm. rewrite Horder in Hm. now apply elem_of_map_to_list. }
  apply list_elem_of_split in Hin as (o1 & o2 & ->).
  rewrite fmap_app, fmap_cons in Hnodup. cbn [fst] in Hnodup.
  apply NoDup_app in Hnodup as (_ & Hdisj & Hnd2).
  apply NoDup_cons in Hnd2 as [Hnot2 _].
  rewrite keywordCompleter_no_dot by exact Hdot.
  rewrite flat_map_app. cbn [flat_map].
  rewrite String.eqb_refl, flat_map_singleton.
  eexists _, _. split; [reflexivity|].
  apply Forall_app. split; apply other_entries; intros module ms Hm;
    apply list_elem_of_In in Hm.
  - split.
    + intros ->. apply (Hdisj line).
      * apply list_elem_of_fmap. now exists (line, ms).
      * left.
    + apply Hcat. apply elem_of_app. now left.
  - split.
    + intros ->. apply Hnot2.
      apply list_elem_of_fmap. now exists (line, ms).
    + apply Hcat. apply elem_of_app. right. now right.
Qed.

Lemma complete_module_name_witness :
  map_to_list twoModules ≡ₚ map_to_list twoModules /\
  Contains "admin" "." = false /\
  twoModules !! "admin" = Some ["peers"; "nodeInfo"] /\
  exists before after : list string,
    keywordCompleter twoModules (map_to_list twoModules) "admin"
    = (before ++ qualified "admin" ["peers"; "nodeInfo"] ++ after)%list /\
    Forall (longerModule twoModules "admin") (before ++ after)%list.
Proof.
  assert (H1 : map_to_list twoModules ≡ₚ map_to_list twoModules) by reflexivity.
  assert (H2 : Contains "admin" "." = false) by reflexivity.
  assert (H3 : twoModules !! "admin" = Some ["peers"; "nodeInfo"]) by reflexivity.
  repeat (split; [assumption|]).
  exact (complete_module_name twoModules (map_to_list twoModules) "admin"
           ["peers"; "nodeInfo"] H1 H2 H3).
Defined.

(** C4 as it is worded fails: the methods are suggested with the module
    prefix, not as bare method names. *)
Lemma module_methods_are_qualified :
  let catalog : gmap string (list string) :=
    {[ "admin" := ["startRPC"; "stopRPC"; "peers"] ]} in
  Contains "admin" "." = false /\
  catalog !! "admin" = Some ["startRPC"; "stopRPC"; "peers"] /\
  keywordCompleter catalog (map_to_list catalog) "admin"
  = ["admin.startRPC"; "admin.stopRPC"; "admin.peers"] /\
  keywordCompleter catalog (map_to_list catalog) "admin"
  <> ["startRPC"; "stopRPC"; "peers"].
Proof.
  cbv zeta.
  assert (E : keywordCompleter {[ "admin" := ["startRPC"; "stopRPC"; "peers"] ]}
                (map_to_list ({[ "admin" := ["startRPC"; "stopRPC"; "peers"] ]}
                              : gmap string (list string))) "admin"
              = ["admin.startRPC"; "admin.stopRPC"; "admin.peers"]).
  { rewrite map_to_list_singleton. reflexivity. }
  rewrite E. repeat split; try reflexivity. discriminate.
Qed.

Example complete_two_modules :
  keywordCompleter twoModules
    [("administrator", ["grant"]); ("admin", ["peers"; "nodeInfo"])] "admin"
  = ["administrator"; "admin.peers"; "admin.nodeInfo"].
Proof. reflexivity. Qed.

Example complete_module_prefix :
  keywordCompleter twoModules
    [("administrator", ["grant"]); ("admin", ["peers"; "nodeInfo"])] "adm"
  = ["administrator"; "admin"].
Proof. reflexivity. Qed.

(** ** The token before the cursor *)

Lemma byteAt_true (line : string) (j : nat) (c : ascii) :
  byteAt line j c = true <-> String.get j line = Some c.
Proof.
  unfold byteAt. destruct (String.get j line) as [a|]; [|split; discriminate].
  rewrite Ascii.eqb_eq. split; congruence.
Qed.

Lemma tokenByte_iff (line : string) (j : nat) :
  tokenByte line j = true <-> partOfToken line j.
Proof.
  unfold tokenByte, partOfToken, endsAlias.
  rewrite !orb_true_iff, !andb_true_iff, !byteAt_true, Nat.leb_le.
  unfold byteIn, isLetter.
  destruct (String.get j line) as [a|] eqn:Hget.
  - split.
    + intros [[[H|H]|H]|H].
      * left. exists a. split; [reflexivity|]. left. congruence.
      * left. exists a. split; [reflexivity|]. right. now rewrite H.
      * left. exists a. split; [reflexivity|]. right. rewrite H. apply orb_true_r.
      * right. tauto.
    + intros [(b & Hb & [->|H])|H].
      * left. left. left. exact Hb.
      * inversion Hb; subst b. apply orb_true_iff in H as [H|H]; auto.
      * right. tauto.
  - split.
    + intros [[[H|H]|H]|H]; try discriminate. right. tauto.
    + intros [(b & Hb & _)|H]; [discriminate|]. right. tauto.
Qed.

(** Where the scanning loop started at index [p] leaves [i]. *)
Lemma scan_spec (line : string) (p : nat) :
  (scan line p <= p + 1)%nat /\
  (forall j, (scan line p <= j <= p)%nat -> (0 < j)%nat -> tokenByte line j = true) /\
  ((0 < scan line p)%nat -> tokenByte line (scan line p - 1) = false).
Proof.
  induction p as [|q (IH1 & IH2 & IH3)].
  - simpl. repeat split; intros; lia.
  - cbn [scan]. destruct (tokenByte line (S q)) eqn:Htok.
    + split; [lia|]. split; [|exact IH3].
      intros j Hj Hpos. destruct (Nat.eq_dec j (S q)) as [->|Hne]; [exact Htok|].
      apply IH2; lia.
    + split; [lia|]. split; [intros; lia|].
      intros _. now replace (S q + 1 - 1)%nat with (S q) by lia.
Qed.

(** C3, as the code has it.  For a cursor inside a non-empty line, the
    backward scan passes over the [.] separator, the ASCII letters and a
    [3] that ends the alias [web3], and stops at the first byte outside
    this set that it meets at an index above 0; digits other than that
    [3] and the underscore are outside the set.  The token handed to the
    keyword completer is the slice from that boundary to the cursor, and
    the line before and after it is returned unchanged. *)
Theorem token_boundary
  (catalog : gmap string (list string)) (order : list (string * list string))
  (line : string) (pos : Z) :
  0 < pos <= Z.of_nat (String.length line) ->
  exists i : nat,
    (i <= Z.to_nat pos)%nat /\
    apiWordCompleter catalog order line pos
    = Some (slice line 0 i,
            keywordCompleter catalog order (slice line i (Z.to_nat pos)),
            slice line (Z.to_nat pos) (String.length line)) /\
    (forall j, (i <= j < Z.to_nat pos)%nat -> (0 < j)%nat -> partOfToken line j) /\
    ((0 < i)%nat -> ~ partOfToken line (i - 1)).
Proof.
  intros [Hpos Hlen].
  destruct (scan_spec line (Z.to_nat pos - 1)) as (H1 & H2 & H3).
  exists (scan line (Z.to_nat pos - 1)). split; [lia|]. split.
  - unfold apiWordCompleter.
    replace (String.length line =? 0)%nat with false
      by (symmetry; apply Nat.eqb_neq; lia).
    replace (pos =? 0) with false by (symmetry; apply Z.eqb_neq; lia).
    replace (pos <? 0) with false by (symmetry; apply Z.ltb_ge; lia).
    replace (Z.of_nat (String.length line) <? pos) with false
      by (symmetry; apply Z.ltb_ge; lia).
    reflexivity.
  - split.
    + intros j Hj Hj0. apply tokenByte_iff, H2; [lia | exact Hj0].
    + intros Hi Hpart. apply tokenByte_iff in Hpart.
      rewrite H3 in Hpart by exact Hi. discriminate.
Qed.

Lemma token_boundary_witness :
  0 < 10 <= Z.of_nat (String.length "x = web3.e") /\
  exists i : nat,
    (i <= Z.to_nat 10)%nat /\
    apiWordCompleter ∅ [] "x = web3.e" 10
    = Some (slice "x = web3.e" 0 i,
            keywordCompleter ∅ [] (slice "x = web3.e" i (Z.to_nat 10)),
            slice "x = web3.e" (Z.to_nat 10) (String.length "x = web3.e")) /\
    (forall j, (i <= j < Z.to_nat 10)%nat -> (0 < j)%nat ->
               partOfToken "x = web3.e" j) /\
    ((0 < i)%nat -> ~ partOfToken "x = web3.e" (i - 1)).
Proof.
  assert (H : 0 < 10 <= Z.of_nat (String.length "x = web3.e"))
    by (vm_compute; split; [reflexivity | discriminate]).
  split; [exact H|].
  exact (token_boundary ∅ [] "x = web3.e" 10 H).
Defined.

(** The underscore and the digits are outside the set. *)
Lemma underscore_not_partOfToken (line : string) (j : nat) :
  String.get j line = Some "_"%char -> ~ partOfToken line j.
Proof.
  intros Hget [(a & Ha & [->|H])|(_ & _ & _ & _ & H3)]; try congruence.
  rewrite Hget in Ha. inversion Ha; subst a. discriminate.
Qed.

(** C3 as it is worded fails: every byte of [my_var] is an identifier
    character, so the token would be the whole of it, but the scan stops
    at the underscore and the completer receives [var]. *)
Lemma underscore_ends_the_token :
  specBoundary "my_var" 6 = 0%nat /\
  slice "my_var" (specBoundary "my_var" 6) 6 = "my_var" /\
  scan "my_var" 5 = 3%nat /\
  slice "my_var" (scan "my_var" 5) 6 = "var" /\
  apiWordCompleter ∅ [] "my_var" 6
  = Some ("my_", keywordCompleter ∅ [] "var", "") /\
  apiWordCompleter ∅ [] "my_var" 6
  <> Some ("", keywordCompleter ∅ [] "my_var", "").
Proof. repeat split; try reflexivity. vm_compute. discriminate. Qed.

(** A digit likewise: the scan stops at once and the token is empty. *)
Example digit_ends_the_token :
  apiWordCompleter ∅ [] "tx1" 3
  = Some ("tx1", keywordCompleter ∅ [] "", "").
Proof. reflexivity. Qed.

(** * Further properties of the console *)

(** ** The two logs of the loop *)

Lemma chop_line (buf input : string) : chop (buf ++ input ++ nl) = buf ++ input.
Proof. unfold chop. rewrite <- append_assoc. apply slice_drop_nl. Qed.

Lemma recorded_clean (statement : string) :
  statement <> "" ->
  Forall (fun h => h <> "" /\ Regexp.MatchString h = false) (recorded statement).
Proof.
  intros Hne. unfold recorded.
  destruct (Regexp.MatchString statement) eqn:Hm; repeat constructor; assumption.
Qed.

Lemma logged_initial : logged initial.
Proof. split; simpl; [constructor | reflexivity | constructor]. Qed.

Lemma logged_receive (s s' : session) (input : string) :
  logged s -> receive s input = Running s' -> logged s'.
Proof.
  intros [Hc Hm Hd] H.
  destruct (String.eqb_spec input "") as [->|Hne].
  { rewrite receive_empty in H. inversion H; subst. now split. }
  assert (Hx : ~ (indentCount s <= 0 /\ input = "exit")).
  { intros Hex. assert (He : exists x, receive s input = Exited x)
      by (apply receive_exit; tauto).
    destruct He as [x He]. congruence. }
  rewrite receive_line in H by assumption. cbv zeta in H.
  assert (Hb : str s ++ input <> "").
  { intros E. apply append_empty in E as [_ E]. contradiction. }
  destruct (Z.leb_spec (depth (str s ++ input ++ nl)) 0) as [Hle|Hgt];
    inversion H; subst; clear H; split; cbn [history evaluated]; try assumption.
  - apply Forall_app. split; [exact Hc | now apply recorded_clean].
  - rewrite flat_map_app. cbn [flat_map]. rewrite chop_line, app_nil_r.
    now rewrite <- Hm.
  - apply Forall_app. split; [exact Hd|]. constructor; [|constructor].
    split; [exact Hle|]. exists (str s ++ input).
    split; [exact Hb | now rewrite append_assoc].
Qed.

Lemma logged_step (s s' : session) (e : event) :
  logged s -> step s e = Running s' -> logged s'.
Proof.
  intros Hs H. destruct e as [input| | |]; simpl in H; try discriminate.
  - eapply logged_receive; eauto.
  - eapply logged_receive; [|exact H]. destruct Hs. now split.
Qed.

Lemma reachable_logged (s : session) : reachable s -> logged s.
Proof.
  induction 1 as [|s e s' _ IH Hstep];
    [apply logged_initial | eapply logged_step; eauto].
Qed.

Lemma reachable_busySession : reachable busySession.
Proof.
  apply (reachable_run initial busySession
           [Line "f("; Line "1)"; Line "personal.newAccount('pw')"]);
    [constructor | reflexivity].
Defined.

(** X1.  No entry of the history matches the password pattern, and none is
    empty, whatever the operator has typed so far. *)
Theorem history_never_sensitive (s : session) :
  reachable s ->
  Forall (fun h => h <> "" /\ Regexp.MatchString h = false) (history s).
Proof. intros Hs. apply reachable_logged, Hs. Qed.

Lemma history_never_sensitive_witness :
  reachable busySession /\
  Forall (fun h => h <> "" /\ Regexp.MatchString h = false) (history busySession).
Proof.
  split; [exact reachable_busySession|].
  exact (history_never_sensitive busySession reachable_busySession).
Defined.

(** X2.  The history is the sequence of the evaluated statements, in the
    order of their evaluation and each without its final line feed, from
    which those matching the password pattern are left out. *)
Theorem history_mirrors_evaluated (s : session) :
  reachable s ->
  history s = flat_map (fun code => recorded (chop code)) (evaluated s).
Proof. intros Hs. apply reachable_logged, Hs. Qed.

Lemma history_mirrors_evaluated_witness :
  reachable busySession /\
  history busySession
  = flat_map (fun code => recorded (chop code)) (evaluated busySession).
Proof.
  split; [exact reachable_busySession|].
  exact (history_mirrors_evaluated busySession reachable_busySession).
Defined.

(** X3.  Every statement handed to the evaluator has a bracket depth of at
    most zero and is a non-empty text followed by one line feed: the loop
    never evaluates a buffer it still counts as open. *)
Theorem evaluated_statements_closed (s : session) :
  reachable s ->
  Forall (fun code => depth code <= 0 /\ exists b, b <> "" /\ code = b ++ nl)
         (evaluated s).
Proof. intros Hs. apply reachable_logged, Hs. Qed.

Lemma evaluated_statements_closed_witness :
  reachable busySession /\
  Forall (fun code => depth code <= 0 /\ exists b, b <> "" /\ code = b ++ nl)
         (evaluated busySession).
Proof.
  split; [exact reachable_busySession|].
  exact (evaluated_statements_closed busySession reachable_busySession).
Defined.

(** ** How the session ends *)

(** X4.  One turn of the loop ends the session exactly on the end of the
    input channel, on the interrupt signal, or on the line [exit] received
    at depth [<= 0]; an aborted prompt never ends it.  The session is left
    as it was: a buffer still open is neither evaluated nor recorded. *)
Theorem step_exits_iff (s s' : session) (e : event) :
  step s e = Exited s' <->
  s' = s /\
  (e = Closed \/ e = Interrupt \/ (e = Line "exit" /\ indentCount s <= 0)).
Proof.
  destruct e as [input| | |]; cbn [step].
  - split.
    + intros H.
      assert (He : input = "exit" /\ indentCount s <= 0)
        by (apply receive_exit; eauto).
      destruct He as [-> Hle]. unfold receive in H.
      destruct (Z.leb_spec (indentCount s) 0); [|lia].
      cbn [andb] in H. rewrite String.eqb_refl in H. inversion H; subst.
      split; [reflexivity|]. right. right. split; [reflexivity | assumption].
    + intros [-> [H|[H|[H Hle]]]]; try discriminate. inversion H; subst.
      unfold receive. now destruct (Z.leb_spec (indentCount s) 0); [|lia].
  - rewrite receive_empty. split; [discriminate|].
    intros [_ [H|[H|[H _]]]]; discriminate.
  - split; [intros H; inversion H; auto | intros [-> _]; reflexivity].
  - split; [intros H; inversion H; auto | intros [-> _]; reflexivity].
Qed.

(** ** An aborted prompt *)

(** The loop reads the buffer, the depth and the prompt, never its logs. *)
Lemma receive_prependLogs (h e : list string) (s : session) (input : string) :
  receive (prependLogs h e s) input
  = mapOutcome (prependLogs h e) (receive s input).
Proof.
  unfold receive, setIndent, setStr, parseInput, AppendHistory, prependLogs.
  cbv zeta. cbn [str indentCount ps1 history evaluated].
  destruct ((indentCount s <=? 0) && String.eqb input "exit"); [reflexivity|].
  destruct (String.eqb input ""); [reflexivity|].
  destruct (depth (str s ++ input ++ nl) <=? 0); [|reflexivity].
  destruct (0 <? String.length
                   (hidepassword
                      (slice (str s ++ input ++ nl) 0
                             (String.length (str s ++ input ++ nl) - 1))))%nat;
    cbn [mapOutcome str indentCount ps1 history evaluated];
    now rewrite ?app_assoc.
Qed.

Lemma run_prependLogs (h e : list string) (es : list event) (s : session) :
  run (prependLogs h e s) es = mapOutcome (prependLogs h e) (run s es).
Proof.
  revert s. induction es as [|ev es IH]; intros s; [reflexivity|].
  cbn [run].
  assert (Hstep : step (prependLogs h e s) ev
                  = mapOutcome (prependLogs h e) (step s ev)).
  { destruct ev as [input| | |]; cbn [step];
      first [apply receive_prependLogs | reflexivity]. }
  rewrite Hstep. destruct (step s ev); cbn [mapOutcome]; [apply IH | reflexivity].
Qed.

(** X6.  After a prompt aborted by ctrl-C the loop goes on as a session
    just started would, only with the logs it had: the discarded buffer
    has no part in any statement evaluated or recorded later. *)
Theorem aborted_prompt_starts_afresh (s : session) (es : list event) :
  run s (Aborted :: es)
  = mapOutcome (prependLogs (history s) (evaluated s)) (run initial es).
Proof.
  cbn [run step]. rewrite receive_empty, <- run_prependLogs.
  unfold resetPrompt, prependLogs, initial; cbn [str indentCount ps1 history evaluated].
  now rewrite !app_nil_r.
Qed.

Example abort_discards_open_function :
  run initial [Line "function foo() {"; Aborted; Line "1 + 1"]
  = run initial [Line "1 + 1"].
Proof. reflexivity. Qed.

(** ** The prompt *)

Lemma Join_make_dots (n : nat) : Join (repeat "" (S n)) ".." = dots n.
Proof.
  induction n as [|n IH]; [reflexivity|].
  change (repeat "" (S (S n))) with ("" :: repeat "" (S n)).
  cbn [Join dots]. cbn [repeat] in *. now rewrite IH.
Qed.

Lemma length_dots (n : nat) : String.length (dots n) = (2 * n)%nat.
Proof. induction n as [|n IH]; [reflexivity|]. cbn [dots]. simpl. rewrite IH. lia. Qed.

Lemma promptFor_continuation (ic : Z) :
  0 < ic -> promptFor ic = dots (Z.to_nat (2 * ic - 1)) ++ " ".
Proof.
  intros Hpos. unfold promptFor, make.
  destruct (Z.leb_spec ic 0) as [|_]; [lia|].
  replace (Z.to_nat (ic * 2)) with (S (Z.to_nat (2 * ic - 1))) by lia.
  now rewrite Join_make_dots.
Qed.

(** X7.  Whenever the loop waits, its prompt is determined by the depth:
    the base prompt at depth [<= 0], and at a depth [d > 0] the two dots
    repeated [2d - 1] times and a space, [4d - 1] bytes in all. *)
Theorem prompt_of_depth (s : session) :
  reachable s ->
  (indentCount s <= 0 -> ps1 s = "> ") /\
  (0 < indentCount s ->
     ps1 s = dots (Z.to_nat (2 * indentCount s - 1)) ++ " " /\
     Z.of_nat (String.length (ps1 s)) = 4 * indentCount s - 1).
Proof.
  intros Hs. pose proof (reachable_waiting s Hs) as [_ _ Hps]. split.
  - intros Hle. rewrite Hps. now apply promptFor_idle.
  - intros Hpos. rewrite Hps, promptFor_continuation by exact Hpos.
    split; [reflexivity|]. rewrite append_length, length_dots. simpl. lia.
Qed.

Lemma prompt_of_depth_witness :
  reachable openBrace /\
  (indentCount openBrace <= 0 -> ps1 openBrace = "> ") /\
  (0 < indentCount openBrace ->
     ps1 openBrace = dots (Z.to_nat (2 * indentCount openBrace - 1)) ++ " " /\
     Z.of_nat (String.length (ps1 openBrace)) = 4 * indentCount openBrace - 1).
Proof.
  split; [exact reachable_openBrace|].
  exact (prompt_of_depth openBrace reachable_openBrace).
Defined.

(** ** What the password pattern catches *)

Lemma MatchString_app (pre s : string) :
  Regexp.MatchString s = true -> Regexp.MatchString (pre ++ s) = true.
Proof.
  intros H. induction pre as [|a pre IH]; [exact H|].
  cbn [String.append Regexp.MatchString]. rewrite IH. apply orb_true_r.
Qed.

(** X8.  A statement in which [personal.] is followed by [n] or [u], such
    as a call of [personal.newAccount] or [personal.unlockAccount] with
    its passphrase, is replaced by the empty string wherever the call
    stands in the statement. *)
Theorem hidepassword_scrubs_account_calls (pre post : string) :
  hidepassword (pre ++ "personal.n" ++ post) = "" /\
  hidepassword (pre ++ "personal.u" ++ post) = "".
Proof.
  unfold hidepassword.
  rewrite !MatchString_app; [split; reflexivity | |].
  - destruct post; reflexivity.
  - destruct post; reflexivity.
Qed.

(** ** Splitting and prefixes *)

Lemma Contains_app (s t : string) (c : ascii) :
  Contains (s ++ t) c = Contains s c || Contains t c.
Proof.
  induction s as [|a s IH]; [reflexivity|].
  cbn [String.append Contains]. rewrite IH. apply orb_assoc.
Qed.

Lemma Split_without (s : string) (sep : ascii) :
  Contains s sep = false -> Split s sep = [s].
Proof.
  induction s as [|a s IH]; [reflexivity|]. cbn [Contains Split].
  intros H. apply orb_false_iff in H as [Ha Hs]. now rewrite Ha, IH.
Qed.

Lemma Split_at_first (s t : string) (sep : ascii) :
  Contains s sep = false ->
  Split (s ++ String sep t) sep = s :: Split t sep.
Proof.
  induction s as [|a s IH]; intros H.
  - cbn [String.append Split]. now rewrite Ascii.eqb_refl.
  - cbn [Contains] in H. apply orb_false_iff in H as [Ha Hs].
    cbn [String.append Split]. now rewrite Ha, IH.
Qed.

Lemma Split_not_nil (s : string) (sep : ascii) : Split s sep <> [].
Proof.
  destruct s as [|a s]; [discriminate|]. cbn [Split].
  destruct (Ascii.eqb a sep); [discriminate|].
  destruct (Split s sep); discriminate.
Qed.

Lemma Join_Split (s : string) (sep : ascii) :
  Join (Split s sep) (String sep "") = s.
Proof.
  induction s as [|a s IH]; [reflexivity|]. cbn [Split].
  pose proof (Split_not_nil s sep) as Hne.
  destruct (Split s sep) as [|x xs]; [congruence|].
  destruct (Ascii.eqb_spec a sep) as [->|_].
  - change (Join ("" :: x :: xs) (String sep ""))
      with (String sep (Join (x :: xs) (String sep ""))).
    now rewrite IH.
  - rewrite <- IH. destruct xs; reflexivity.
Qed.

Lemma length_Split (s : string) (sep : ascii) :
  Z.of_nat (length (Split s sep)) = Count s sep + 1.
Proof.
  induction s as [|a s IH]; [reflexivity|]. cbn [Split Count].
  pose proof (Split_not_nil s sep) as Hne.
  destruct (Ascii.eqb a sep).
  - cbn [length]. lia.
  - destruct (Split s sep) as [|x xs]; [congruence|]. cbn [length] in *. lia.
Qed.

Lemma HasPrefix_refl (s : string) : HasPrefix s s = true.
Proof. induction s as [|a s IH]; [reflexivity|]. cbn. now rewrite Ascii.eqb_refl. Qed.

Lemma HasPrefix_app (p s t : string) :
  HasPrefix (p ++ s) (p ++ t) = HasPrefix s t.
Proof.
  induction p as [|a p IH]; [reflexivity|].
  cbn [String.append HasPrefix]. now rewrite Ascii.eqb_refl, IH.
Qed.

Lemma HasPrefix_app_l (s t : string) : HasPrefix (s ++ t) s = true.
Proof.
  induction s as [|a s IH]; [now destruct t|].
  cbn [String.append HasPrefix]. now rewrite Ascii.eqb_refl, IH.
Qed.

(** ** Suggestions of the keyword completer *)

(** X9.  Every suggestion extends what was typed: the token is a prefix
    of each suggestion, for every token, catalog and traversal order. *)
Theorem suggestions_extend_token
  (catalog : gmap string (list string)) (order : list (string * list string))
  (line : string) :
  Forall (fun suggestion => HasPrefix suggestion line = true)
         (keywordCompleter catalog order line).
Proof.
  unfold keywordCompleter. destruct (Contains line ".") eqn:Hdot.
  - pose proof (Join_Split line ".") as Hjoin.
    destruct (Split line ".") as [|module [|partialMethod [|? ?]]];
      try constructor.
    destruct (catalog !! module) as [methods|]; [|constructor].
    change (Join [module; partialMethod] ".")
      with (module ++ "." ++ partialMethod) in Hjoin.
    rewrite <- Hjoin. clear Hjoin Hdot.
    induction methods as [|method methods IH]; [constructor|].
    cbn [flat_map]. apply Forall_app. split; [|exact IH].
    destruct (HasPrefix method partialMethod) eqn:Hp; constructor; [|constructor].
    rewrite HasPrefix_app.
    change ("." ++ method) with (String "." method).
    change ("." ++ partialMethod) with (String "." partialMethod).
    cbn [HasPrefix]. now rewrite Ascii.eqb_refl.
  - induction order as [|[module methods] order IH]; [constructor|].
    cbn [flat_map]. apply Forall_app. split; [|exact IH].
    destruct (String.eqb_spec line module) as [->|_].
    + clear. induction methods as [|method methods IH]; [constructor|].
      cbn [flat_map]. constructor; [apply HasPrefix_app_l | exact IH].
    + destruct (HasPrefix module line) eqn:Hp; constructor; [exact Hp | constructor].
Qed.

Lemma flat_map_filter (module partialMethod : string) (methods : list string) :
  flat_map (fun method => if HasPrefix method partialMethod
                          then [module ++ "." ++ method] else []) methods
  = qualified module (startingWith partialMethod methods).
Proof.
  unfold qualified, startingWith.
  induction methods as [|method methods IH]; [reflexivity|].
  cbn [flat_map List.filter].
  destruct (HasPrefix method partialMethod); cbn [map app]; now rewrite IH.
Qed.

Lemma Split_module_method (module partialMethod : string) :
  Contains module "." = false ->
  Contains partialMethod "." = false ->
  Contains (module ++ "." ++ partialMethod) "." = true /\
  Split (module ++ "." ++ partialMethod) "." = [module; partialMethod].
Proof.
  intros Hm Hp. split.
  - rewrite !Contains_app. cbn. now rewrite orb_true_r.
  - change ("." ++ partialMethod) with (String "." partialMethod).
    now rewrite Split_at_first, Split_without.
Qed.

(** X10.  For a token [module.partial] with no further dot and a module
    of the catalog, the suggestions are the methods of that module whose
    name starts with [partial], in the order of the module's method list,
    each as [module.method]; the other modules play no part. *)
Theorem complete_method_prefix
  (catalog : gmap string (list string)) (order : list (string * list string))
  (module partialMethod : string) (methods : list string) :
  Contains module "." = false ->
  Contains partialMethod "." = false ->
  catalog !! module = Some methods ->
  keywordCompleter catalog order (module ++ "." ++ partialMethod)
  = qualified module (startingWith partialMethod methods).
Proof.
  intros Hm Hp Hlook. unfold keywordCompleter.
  destruct (Split_module_method module partialMethod Hm Hp) as [-> ->].
  rewrite Hlook. apply flat_map_filter.
Qed.

Lemma complete_method_prefix_witness :
  Contains "admin" "." = false /\
  Contains "no" "." = false /\
  twoModules !! "admin" = Some ["peers"; "nodeInfo"] /\
  keywordCompleter twoModules [] ("admin" ++ "." ++ "no")
  = qualified "admin" (startingWith "no" ["peers"; "nodeInfo"]).
Proof.
  assert (H1 : Contains "admin" "." = false) by reflexivity.
  assert (H2 : Contains "no" "." = false) by reflexivity.
  assert (H3 : twoModules !! "admin" = Some ["peers"; "nodeInfo"]) by reflexivity.
  repeat (split; [assumption|]).
  exact (complete_method_prefix twoModules [] "admin" "no" _ H1 H2 H3).
Defined.

(** X11.  A token [module.partial] whose module the catalog does not hold
    has no suggestion. *)
Theorem unknown_module_has_no_suggestion
  (catalog : gmap string (list string)) (order : list (string * list string))
  (module partialMethod : string) :
  Contains module "." = false ->
  Contains partialMethod "." = false ->
  catalog !! module = None ->
  keywordCompleter catalog order (module ++ "." ++ partialMethod) = [].
Proof.
  intros Hm Hp Hlook. unfold keywordCompleter.
  destruct (Split_module_method module partialMethod Hm Hp) as [-> ->].
  now rewrite Hlook.
Qed.

Lemma unknown_module_has_no_suggestion_witness :
  Contains "debug" "." = false /\
  Contains "se" "." = false /\
  twoModules !! "debug" = None /\
  keywordCompleter twoModules (map_to_list twoModules) ("debug" ++ "." ++ "se") = [].
Proof.
  assert (H1 : Contains "debug" "." = false) by reflexivity.
  assert (H2 : Contains "se" "." = false) by reflexivity.
  assert (H3 : twoModules !! "debug" = None) by reflexivity.
  repeat (split; [assumption|]).
  exact (unknown_module_has_no_suggestion twoModules _ "debug" "se" H1 H2 H3).
Defined.

Lemma Count_without (s : string) (c : ascii) :
  Contains s c = false -> Count s c = 0.
Proof.
  induction s as [|a s IH]; [reflexivity|]. cbn [Contains Count].
  intros E. apply orb_false_iff in E as [-> E]. rewrite IH by exact E. lia.
Qed.

(** X12.  A token with two dots or more, such as a property of a property,
    has no suggestion. *)
Theorem nested_token_has_no_suggestion
  (catalog : gmap string (list string)) (order : list (string * list string))
  (line : string) :
  2 <= Count line "." ->
  keywordCompleter catalog order line = [].
Proof.
  intros Hcount. unfold keywordCompleter.
  destruct (Contains line ".") eqn:Hdot.
  - pose proof (length_Split line ".") as Hlen.
    destruct (Split line ".") as [|a [|b [|c l]]]; cbn [length] in Hlen;
      try reflexivity; lia.
  - rewrite Count_without in Hcount by exact Hdot. lia.
Qed.

Lemma nested_token_has_no_suggestion_witness :
  2 <= Count "web3.exp.ac" "." /\
  keywordCompleter twoModules (map_to_list twoModules) "web3.exp.ac" = [].
Proof.
  assert (H : 2 <= Count "web3.exp.ac" ".") by (vm_compute; discriminate).
  split; [exact H|].
  exact (nested_token_has_no_suggestion twoModules _ "web3.exp.ac" H).
Defined.

Lemma prefix_entries (line : string) (entries : list (string * list string)) :
  (forall module methods, In (module, methods) entries -> module <> line) ->
  flat_map (fun '(module, methods) =>
              if String.eqb line module
              then flat_map (fun method => [module ++ "." ++ method]) methods
              else if HasPrefix module line then [module] else [])
           entries
  = List.filter (fun module => HasPrefix module line) (map fst entries).
Proof.
  induction entries as [|[module methods] entries IH]; intros H; [reflexivity|].
  cbn [flat_map map fst List.filter].
  rewrite IH by (intros; eapply H; right; eauto).
  destruct (String.eqb_spec line module) as [->|_].
  - exfalso. now apply (H module methods (or_introl eq_refl)).
  - now destruct (HasPrefix module line).
Qed.

Lemma NoDup_List_filter {A : Type} (f : A -> bool) (l : list A) :
  NoDup l -> NoDup (List.filter f l).
Proof.
  induction 1 as [|x l Hx Hl IH]; cbn [List.filter]; [constructor|].
  destruct (f x); [|exact IH]. constructor; [|exact IH].
  intros Hin. apply Hx. apply list_elem_of_In.
  apply list_elem_of_In, filter_In in Hin. tauto.
Qed.

(** X13.  For a token without [.] that names no module of the catalog, the
    suggestions are the names of the modules that start with the token,
    each once, in the order in which the catalog is visited: a name is
    suggested exactly when it is a module of the catalog with that prefix.
    The empty token thus suggests every module. *)
Theorem complete_module_prefix_exactly
  (catalog : gmap string (list string)) (order : list (string * list string))
  (line : string) :
  order ≡ₚ map_to_list catalog ->
  Contains line "." = false ->
  catalog !! line = None ->
  keywordCompleter catalog order line
  = List.filter (fun module => HasPrefix module line) (map fst order) /\
  NoDup (keywordCompleter catalog order line) /\
  (forall suggestion,
      In suggestion (keywordCompleter catalog order line) <->
      is_Some (catalog !! suggestion) /\ HasPrefix suggestion line = true).
Proof.
  intros Horder Hdot Hnone.
  assert (Hcat : forall module ms,
             (module, ms) ∈ order <-> catalog !! module = Some ms).
  { intros module ms. rewrite Horder. apply elem_of_map_to_list. }
  assert (E : keywordCompleter catalog order line
              = List.filter (fun module => HasPrefix module line) (map fst order)).
  { rewrite keywordCompleter_no_dot by exact Hdot. apply prefix_entries.
    intros module ms Hin ->. apply list_elem_of_In, Hcat in Hin. congruence. }
  rewrite E. split; [reflexivity|]. split.
  - apply NoDup_List_filter.
    change (map fst order) with (order.*1). rewrite Horder.
    apply NoDup_fst_map_to_list.
  - intros suggestion. rewrite filter_In, in_map_iff. split.
    + intros [([module ms] & <- & Hin) Hp]. split; [|exact Hp].
      exists ms. now apply Hcat, list_elem_of_In.
    + intros [[ms Hms] Hp]. split; [|exact Hp].
      exists (suggestion, ms). split; [reflexivity|].
      now apply list_elem_of_In, Hcat.
Qed.

Lemma complete_module_prefix_exactly_witness :
  map_to_list twoModules ≡ₚ map_to_list twoModules /\
  Contains "adm" "." = false /\
  twoModules !! "adm" = None /\
  keywordCompleter twoModules (map_to_list twoModules) "adm"
  = List.filter (fun module => HasPrefix module "adm")
                (map fst (map_to_list twoModules)) /\
  NoDup (keywordCompleter twoModules (map_to_list twoModules) "adm") /\
  (forall suggestion,
      In suggestion (keywordCompleter twoModules (map_to_list twoModules) "adm") <->
      is_Some (twoModules !! suggestion) /\ HasPrefix suggestion "adm" = true).
Proof.
  assert (H1 : map_to_list twoModules ≡ₚ map_to_list twoModules) by reflexivity.
  assert (H2 : Contains "adm" "." = false) by reflexivity.
  assert (H3 : twoModules !! "adm" = None) by reflexivity.
  repeat (split; [assumption|]).
  exact (complete_module_prefix_exactly twoModules _ "adm" H1 H2 H3).
Defined.

(** ** The completion entry point *)

Lemma substring_split (s : string) :
  forall i m k : nat,
    (i + m <= String.length s)%nat ->
    substring i (m + k) s = substring i m s ++ substring (i + m) k s.
Proof.
  induction s as [|c s IH]; intros i m k Hlen; cbn [String.length] in Hlen.
  - assert (i = 0%nat) by lia. assert (m = 0%nat) by lia. subst. reflexivity.
  - destruct i as [|i].
    + destruct m as [|m]; [reflexivity|].
      cbn [Nat.add substring String.append].
      rewrite (IH 0%nat m k) by lia. reflexivity.
    + cbn [Nat.add substring]. apply IH. lia.
Qed.

Lemma length_substring (s : string) :
  forall i m : nat,
    (i + m <= String.length s)%nat -> String.length (substring i m s) = m.
Proof.
  induction s as [|c s IH]; intros i m Hlen; cbn [String.length] in Hlen.
  - assert (i = 0%nat) by lia. assert (m = 0%nat) by lia. subst. reflexivity.
  - destruct i as [|i].
    + destruct m as [|m]; [reflexivity|].
      cbn [substring String.length]. rewrite IH by lia. reflexivity.
    + cbn [substring]. apply IH. lia.
Qed.

(** The three slices [line[:i]], [line[i:pos]] and [line[pos:]] make up
    the line. *)
Lemma slices_make_line (line : string) (i pos : nat) :
  (i <= pos <= String.length line)%nat ->
  slice line 0 i ++ slice line i pos ++ slice line pos (String.length line) = line.
Proof.
  intros [Hi Hpos]. unfold slice.
  replace (i - 0)%nat with i by lia.
  pose proof (substring_split line i (pos - i) (String.length line - pos)) as H1.
  replace (i + (pos - i))%nat with pos in H1 by lia.
  replace (pos - i + (String.length line - pos))%nat
    with (String.length line - i)%nat in H1 by lia.
  rewrite <- H1 by lia.
  pose proof (substring_split line 0 i (String.length line - i)) as H2.
  cbn [Nat.add] in H2.
  replace (i + (String.length line - i))%nat with (String.length line) in H2 by lia.
  rewrite <- H2 by lia. apply substring_all.
Qed.

(** The result for a cursor inside a non-empty line. *)
Lemma apiWordCompleter_inside
  (catalog : gmap string (list string)) (order : list (string * list string))
  (line : string) (pos : Z) :
  0 < pos <= Z.of_nat (String.length line) ->
  apiWordCompleter catalog order line pos
  = Some (slice line 0 (scan line (Z.to_nat pos - 1)),
          keywordCompleter catalog order
            (slice line (scan line (Z.to_nat pos - 1)) (Z.to_nat pos)),
          slice line (Z.to_nat pos) (String.length line)).
Proof.
  intros [Hpos Hlen]. unfold apiWordCompleter.
  replace (String.length line =? 0)%nat with false
    by (symmetry; apply Nat.eqb_neq; lia).
  replace (pos =? 0) with false by (symmetry; apply Z.eqb_neq; lia).
  replace (pos <? 0) with false by (symmetry; apply Z.ltb_ge; lia).
  replace (Z.of_nat (String.length line) <? pos) with false
    by (symmetry; apply Z.ltb_ge; lia).
  reflexivity.
Qed.

(** X14.  For a cursor inside a non-empty line the entry point cuts the
    line in three: the head, the token and the tail put together again
    are the line, the token ends at the cursor, and the suggestions are
    those of the keyword completer for the token; nothing of the line is
    lost or changed. *)
Theorem apiWordCompleter_cuts_line
  (catalog : gmap string (list string)) (order : list (string * list string))
  (line : string) (pos : Z) :
  0 < pos <= Z.of_nat (String.length line) ->
  exists head keyword tail : string,
    apiWordCompleter catalog order line pos
    = Some (head, keywordCompleter catalog order keyword, tail) /\
    head ++ keyword ++ tail = line /\
    Z.of_nat (String.length head + String.length keyword) = pos.
Proof.
  intros Hpos.
  pose proof (apiWordCompleter_inside catalog order line pos Hpos) as E.
  destruct (scan_spec line (Z.to_nat pos - 1)) as (Hi & _).
  eexists _, _, _. split; [exact E|]. split.
  - apply slices_make_line. lia.
  - unfold slice. rewrite !length_substring by lia. lia.
Qed.

Lemma apiWordCompleter_cuts_line_witness :
  0 < 10 <= Z.of_nat (String.length "x = web3.e") /\
  exists head keyword tail : string,
    apiWordCompleter twoModules [] "x = web3.e" 10
    = Some (head, keywordCompleter twoModules [] keyword, tail) /\
    head ++ keyword ++ tail = "x = web3.e" /\
    Z.of_nat (String.length head + String.length keyword) = 10.
Proof.
  assert (H : 0 < 10 <= Z.of_nat (String.length "x = web3.e"))
    by (vm_compute; split; [reflexivity | discriminate]).
  split; [exact H|].
  exact (apiWordCompleter_cuts_line twoModules [] "x = web3.e" 10 H).
Defined.

Lemma get_inside (s : string) :
  forall i : nat, (i < String.length s)%nat -> exists c, String.get i s = Some c.
Proof.
  induction s as [|a s IH]; intros i Hi; cbn [String.length] in Hi; [lia|].
  destruct i as [|i]; cbn [String.get]; [eauto | apply IH; lia].
Qed.

Lemma get_outside (s : string) :
  forall i : nat, (String.length s <= i)%nat -> String.get i s = None.
Proof.
  induction s as [|a s IH]; intros i Hi; [now destruct i|].
  cbn [String.length] in Hi. destruct i as [|i]; [lia|].
  cbn [String.get]. apply IH. lia.
Qed.

(** Inside the line the checked tests read what the loop's tests read. *)
Lemma tokenByteChecked_inside (line : string) (i : nat) :
  (i < String.length line)%nat ->
  tokenByteChecked line i = Some (tokenByte line i).
Proof.
  intros Hi. unfold tokenByteChecked, tokenByte, byteAt, byteIn.
  destruct (get_inside line i Hi) as [c ->].
  destruct (Ascii.eqb c "." || (Ascii.leb "a" c && Ascii.leb c "z")
            || (Ascii.leb "A" c && Ascii.leb c "Z")); [reflexivity|].
  cbn [orb]. destruct (Nat.leb_spec 3 i) as [H3|H3]; [|reflexivity].
  cbn [andb]. destruct (Ascii.eqb c "3"); [|reflexivity].
  destruct (get_inside line (i - 3)) as [w ->]; [lia|].
  destruct (Ascii.eqb w "w"); [|reflexivity].
  destruct (get_inside line (i - 2)) as [e ->]; [lia|].
  destruct (Ascii.eqb e "e"); [|reflexivity].
  destruct (get_inside line (i - 1)) as [b ->]; [lia|].
  reflexivity.
Qed.

Lemma scanChecked_inside (line : string) (i : nat) :
  (i < String.length line)%nat -> scanChecked line i = Some (scan line i).
Proof.
  induction i as [|j IH]; intros Hi; [reflexivity|].
  cbn [scanChecked scan]. rewrite tokenByteChecked_inside by exact Hi.
  destruct (tokenByte line (S j)); [apply IH; lia | reflexivity].
Qed.

(** Beyond the end of the line the first read of the loop fails. *)
Lemma scanChecked_outside (line : string) (i : nat) :
  (0 < i)%nat -> (String.length line <= i)%nat -> scanChecked line i = None.
Proof.
  intros H0 Hi. destruct i as [|j]; [lia|].
  cbn [scanChecked]. unfold tokenByteChecked.
  now rewrite get_outside by exact Hi.
Qed.

Lemma sliceAt_inside (line : string) (lo hi : Z) :
  0 <= lo <= hi -> hi <= Z.of_nat (String.length line) ->
  sliceAt line lo hi = Some (slice line (Z.to_nat lo) (Z.to_nat hi)).
Proof.
  intros H1 H2. unfold sliceAt.
  replace (0 <=? lo) with true by (symmetry; apply Z.leb_le; lia).
  replace (lo <=? hi) with true by (symmetry; apply Z.leb_le; lia).
  replace (hi <=? Z.of_nat (String.length line)) with true
    by (symmetry; apply Z.leb_le; lia).
  reflexivity.
Qed.

(** The run-time checks fail exactly where [apiWordCompleter] answers
    [None], and otherwise the two give the same result. *)
Lemma apiWordCompleterChecked_agrees
  (catalog : gmap string (list string)) (order : list (string * list string))
  (line : string) (pos : Z) :
  apiWordCompleterChecked catalog order line pos
  = apiWordCompleter catalog order line pos.
Proof.
  unfold apiWordCompleterChecked, apiWordCompleter.
  destruct ((String.length line =? 0)%nat || (pos =? 0)) eqn:Hguard;
    [reflexivity|].
  apply orb_false_iff in Hguard as [Hlen Hpos0].
  apply Nat.eqb_neq in Hlen. apply Z.eqb_neq in Hpos0.
  destruct (Z.ltb_spec pos 0) as [Hneg|Hnn]; cbn [orb].
  - replace (0 <? pos - 1) with false by (symmetry; apply Z.ltb_ge; lia).
    unfold sliceAt at 1.
    replace (0 <=? pos - 1) with false by (symmetry; apply Z.leb_gt; lia).
    now rewrite andb_false_r.
  - destruct (Z.ltb_spec (Z.of_nat (String.length line)) pos) as [Hbig|Hin].
    + replace (0 <? pos - 1) with true by (symmetry; apply Z.ltb_lt; lia).
      now rewrite scanChecked_outside by lia.
    + replace (Z.to_nat pos - 1)%nat with (Z.to_nat (pos - 1)) by lia.
      destruct (scan_spec line (Z.to_nat (pos - 1))) as (Hle & _).
      assert (E : (if 0 <? pos - 1
                   then option_map Z.of_nat (scanChecked line (Z.to_nat (pos - 1)))
                   else Some (pos - 1))
                  = Some (Z.of_nat (scan line (Z.to_nat (pos - 1))))).
      { destruct (Z.ltb_spec 0 (pos - 1)) as [Hgt|Hle1].
        - now rewrite scanChecked_inside by lia.
        - replace (pos - 1) with 0 by lia. reflexivity. }
      rewrite E.
      rewrite !sliceAt_inside by lia.
      now rewrite !Nat2Z.id.
Qed.

(** X15.  Evaluated with the checks of the Go run time on every index and
    slice expression, the entry point panics exactly when the line is not
    empty and the cursor lies before its start or beyond its end: beyond
    the end the first read [line[pos-1]] is out of range, before the start
    the slice [line[:pos-1]] has a negative bound.  In every other case no
    check fails, and the result is the one [apiWordCompleter] gives. *)
Theorem apiWordCompleter_fails_iff
  (catalog : gmap string (list string)) (order : list (string * list string))
  (line : string) (pos : Z) :
  apiWordCompleterChecked catalog order line pos
  = apiWordCompleter catalog order line pos /\
  (apiWordCompleterChecked catalog order line pos = None <->
   line <> "" /\ (pos < 0 \/ Z.of_nat (String.length line) < pos)).
Proof.
  split; [apply apiWordCompleterChecked_agrees|].
  rewrite apiWordCompleterChecked_agrees. unfold apiWordCompleter.
  destruct line as [|c line].
  - cbn. split; [discriminate | intros [H _]; congruence].
  - cbn [String.length Nat.eqb orb].
    destruct (Z.eqb_spec pos 0) as [->|Hne].
    + split; [discriminate | intros [_ [H|H]]; lia].
    + destruct (Z.ltb_spec pos 0) as [Hneg|Hnn]; cbn [orb].
      * split; [intros _; split; [discriminate | now left] | reflexivity].
      * destruct (Z.ltb_spec (Z.of_nat (S (String.length line))) pos) as [Hbig|Hin].
        -- split; [intros _; split; [discriminate | now right] | reflexivity].
        -- split; [discriminate | intros [_ [H|H]]; lia].
Qed.

Example cursor_beyond_end :
  apiWordCompleterChecked ∅ [] "ab" 3 = None.
Proof. reflexivity. Qed.

Example cursor_before_start :
  apiWordCompleterChecked ∅ [] "ab" (-1) = None.
Proof. reflexivity. Qed.

Example cursor_after_web3 :
  apiWordCompleterChecked ∅ [] "x = web3.e" 10 = Some ("x = ", [], "").
Proof. reflexivity. Qed.

(** ** The answer to the confirmation prompt *)

Lemma HasPrefix_cons_y (a : ascii) (s : string) :
  HasPrefix (String a s) "y" = Ascii.eqb a "y".
Proof. cbn [HasPrefix]. destruct s; apply andb_true_r. Qed.

Lemma HasPrefix_y (s : string) :
  HasPrefix s "y" = true <-> exists rest, s = String "y" rest.
Proof.
  destruct s as [|a s].
  - split; [discriminate | intros [rest H]; discriminate].
  - rewrite HasPrefix_cons_y, Ascii.eqb_eq. split.
    + intros ->. now exists s.
    + intros [rest H]. now inversion H.
Qed.

Lemma HasPrefix_TrimRight (s : string) :
  HasPrefix (TrimRight s " ") "y" = HasPrefix s "y".
Proof.
  destruct s as [|a s]; [reflexivity|]. cbn [TrimRight].
  rewrite (HasPrefix_cons_y a s).
  destruct (TrimRight s " ") as [|b r]; [|apply HasPrefix_cons_y].
  destruct (Ascii.eqb_spec a "y") as [->|Hne]; [reflexivity|].
  destruct (inCutset " " a); [reflexivity|].
  rewrite HasPrefix_cons_y. now apply Ascii.eqb_neq.
Qed.

Lemma TrimLeft_spaces (s : string) :
  exists n, s = spaces n ++ TrimLeft s " ".
Proof.
  induction s as [|a s (n & IH)]; [now exists 0%nat|]. cbn [TrimLeft].
  destruct (inCutset " " a) eqn:Ha.
  - exists (S n). unfold inCutset in Ha. cbn [Contains] in Ha.
    rewrite orb_false_r in Ha. apply Ascii.eqb_eq in Ha as <-.
    cbn [spaces String.append]. now rewrite <- IH.
  - now exists 0%nat.
Qed.

Lemma TrimLeft_spaces_y (n : nat) (rest : string) :
  TrimLeft (spaces n ++ String "y" rest) " " = String "y" rest.
Proof. induction n as [|n IH]; [reflexivity|]. cbn. exact IH. Qed.

(** X16.  With NatSpec enabled the transaction is approved exactly when
    the first byte of the answer that is not a space is [y]: spaces in
    front are skipped, and whatever follows the [y] is not looked at. *)
Theorem ConfirmTransaction_approves_iff
  (P : Type) (Prompt : P -> string -> P * (string * option error))
  (self self' : P) (tx answer : string) (err : option error) :
  Prompt self "Confirm Transaction [y/n]" = (self', (answer, err)) ->
  ConfirmTransaction P Prompt true self tx = (self', true) <->
  exists (n : nat) (rest : string), answer = spaces n ++ String "y" rest.
Proof.
  intros Hprompt. unfold ConfirmTransaction. rewrite Hprompt.
  unfold Trim. rewrite HasPrefix_TrimRight. split.
  - intros H. pose proof (f_equal snd H) as Hy. cbn [snd] in Hy.
    apply HasPrefix_y in Hy as [rest Hy].
    destruct (TrimLeft_spaces answer) as [n Hn]. rewrite Hy in Hn. eauto.
  - intros (n & rest & ->).
    now rewrite TrimLeft_spaces_y, HasPrefix_cons_y.
Qed.

Lemma ConfirmTransaction_approves_iff_witness :
  dumbterm_Prompt (Dumbterm ("  yes" ++ nl)) "Confirm Transaction [y/n]"
  = (Dumbterm "", ("  yes", None)) /\
  (ConfirmTransaction dumbterm dumbterm_Prompt true
     (Dumbterm ("  yes" ++ nl)) "0xf00d" = (Dumbterm "", true) <->
   exists (n : nat) (rest : string), "  yes" = spaces n ++ String "y" rest).
Proof.
  assert (H : dumbterm_Prompt (Dumbterm ("  yes" ++ nl)) "Confirm Transaction [y/n]"
              = (Dumbterm "", ("  yes", None))) by reflexivity.
  split; [exact H|].
  exact (ConfirmTransaction_approves_iff dumbterm dumbterm_Prompt
           (Dumbterm ("  yes" ++ nl)) (Dumbterm "") "0xf00d" "  yes" None H).
Defined.

(** ** The plain terminal *)

Lemma ReadString_line (line rest : string) (delim : ascii) :
  Contains line delim = false ->
  ReadString (line ++ String delim rest) delim
  = (line ++ String delim "", None, rest).
Proof.
  induction line as [|a line IH]; intros H.
  - cbn [String.append ReadString]. now rewrite Ascii.eqb_refl.
  - cbn [Contains] in H. apply orb_false_iff in H as [Ha Hl].
    cbn [String.append ReadString]. now rewrite Ha, IH.
Qed.

Lemma ReadString_end (unread : string) (delim : ascii) :
  Contains unread delim = false ->
  ReadString unread delim = (unread, Some EOF, "").
Proof.
  induction unread as [|a unread IH]; intros H; [reflexivity|].
  cbn [Contains] in H. apply orb_false_iff in H as [Ha Hl].
  cbn [ReadString]. now rewrite Ha, IH.
Qed.

Lemma TrimSuffixLF_line (line : string) : TrimSuffixLF (line ++ nl) = line.
Proof.
  induction line as [|a line IH]; [reflexivity|].
  cbn [String.append TrimSuffixLF]. rewrite IH.
  destruct line; reflexivity.
Qed.

Lemma TrimSuffixLF_without (s : string) :
  Contains s LF = false -> TrimSuffixLF s = s.
Proof.
  induction s as [|a s IH]; intros H; [reflexivity|].
  cbn [Contains] in H. apply orb_false_iff in H as [Ha Hs].
  cbn [TrimSuffixLF]. rewrite IH by exact Hs. rewrite Ha.
  destruct s; reflexivity.
Qed.

(** X17.  When the unread input holds a line feed, [Prompt] of the plain
    terminal returns the bytes before the first one, without error and
    without the line feed, and leaves exactly the bytes after it unread. *)
Theorem dumbterm_Prompt_reads_one_line (line rest p : string) :
  Contains line LF = false ->
  dumbterm_Prompt (Dumbterm (line ++ nl ++ rest)) p
  = (Dumbterm rest, (line, None)).
Proof.
  intros H. unfold dumbterm_Prompt. cbn [r].
  change (nl ++ rest) with (String LF rest).
  rewrite ReadString_line by exact H.
  change (String LF "") with nl. now rewrite TrimSuffixLF_line.
Qed.

Lemma dumbterm_Prompt_reads_one_line_witness :
  Contains "exp.accounts" LF = false /\
  dumbterm_Prompt (Dumbterm ("exp.accounts" ++ nl ++ "exit")) "> "
  = (Dumbterm "exit", ("exp.accounts", None)).
Proof.
  assert (H : Contains "exp.accounts" LF = false) by reflexivity.
  split; [exact H|].
  exact (dumbterm_Prompt_reads_one_line "exp.accounts" "exit" "> " H).
Defined.

(** X18.  When the unread input holds no line feed, [Prompt] of the plain
    terminal returns all of it together with the error [io.EOF], also when
    nothing is left, and the input is used up. *)
Theorem dumbterm_Prompt_at_end (unread p : string) :
  Contains unread LF = false ->
  dumbterm_Prompt (Dumbterm unread) p = (Dumbterm "", (unread, Some EOF)).
Proof.
  intros H. unfold dumbterm_Prompt. cbn [r].
  rewrite ReadString_end by exact H. now rewrite TrimSuffixLF_without.
Qed.

Lemma dumbterm_Prompt_at_end_witness :
  Contains "exit" LF = false /\
  dumbterm_Prompt (Dumbterm "exit") "> " = (Dumbterm "", ("exit", Some EOF)).
Proof.
  assert (H : Contains "exit" LF = false) by reflexivity.
  split; [exact H|].
  exact (dumbterm_Prompt_at_end "exit" "> " H).
Defined.

(** ** The completion table after loading *)

Section LoadFacts.

Variable AutoCompletion : gmap string (list string).

Lemma load_lookup_visited (order : list (string * string))
      (table : gmap string (list string)) (module : string) :
  module ∈ order.*1 ->
  foldl (fun table '(module, _) =>
           <[module := autoCompletionOf AutoCompletion module]> table)
        table order !! module
  = Some (autoCompletionOf AutoCompletion module).
Proof.
  revert table. induction order as [|[m v] order IH] using rev_ind; intros table Hin.
  - inversion Hin.
  - rewrite foldl_app. cbn [foldl].
    destruct (decide (m = module)) as [->|Hne]; [apply lookup_insert_eq|].
    rewrite lookup_insert_ne by exact Hne. apply IH.
    rewrite fmap_app in Hin. apply elem_of_app in Hin as [Hin|Hin]; [exact Hin|].
    cbn in Hin. apply list_elem_of_singleton in Hin. congruence.
Qed.

Lemma load_lookup_other (order : list (string * string))
      (table : gmap string (list string)) (module : string) :
  module ∉ order.*1 ->
  foldl (fun table '(module, _) =>
           <[module := autoCompletionOf AutoCompletion module]> table)
        table order !! module
  = table !! module.
Proof.
  revert table. induction order as [|[m v] order IH]; intros table Hnin;
    [reflexivity|].
  cbn [foldl]. rewrite fmap_cons in Hnin. cbn [fst] in Hnin.
  apply not_elem_of_cons in Hnin as [Hne Hnin].
  rewrite IH by exact Hnin. now apply lookup_insert_ne.
Qed.

Lemma loaded_lookup (current : gmap string (list string))
      (modules : gmap string string) (order : list (string * string))
      (module : string) :
  order ≡ₚ map_to_list modules ->
  loadAutoCompletion AutoCompletion current (inl modules) order !! module
  = match modules !! module with
    | Some _ => Some (autoCompletionOf AutoCompletion module)
    | None => None
    end.
Proof.
  intros Horder. unfold loadAutoCompletion.
  destruct (modules !! module) as [version|] eqn:Hm.
  - apply load_lookup_visited. rewrite Horder.
    apply list_elem_of_fmap. exists (module, version).
    split; [reflexivity | now apply elem_of_map_to_list].
  - rewrite load_lookup_other; [apply lookup_empty|].
    rewrite Horder. intros Hin.
    apply list_elem_of_fmap in Hin as ([m v] & -> & Hin).
    apply elem_of_map_to_list in Hin. cbn [fst] in Hm. congruence.
Qed.

End LoadFacts.

(** X19.  After a successful [loadAutoCompletion] the table holds exactly
    the modules the backend reports as supported, each with the methods
    the package lists for it and with no method when the package lists
    none; what the table held before is gone, and the order in which the
    supported modules are visited makes no difference. *)
Theorem loadAutoCompletion_table
  (AutoCompletion current : gmap string (list string))
  (modules : gmap string string) (order : list (string * string))
  (module : string) :
  order ≡ₚ map_to_list modules ->
  loadAutoCompletion AutoCompletion current (inl modules) order !! module
  = match modules !! module with
    | Some _ => Some (default [] (AutoCompletion !! module))
    | None => None
    end.
Proof. intros Horder. now apply loaded_lookup. Qed.

Lemma loadAutoCompletion_table_witness :
  map_to_list ({[ "admin" := "1.0" ]} : gmap string string)
    ≡ₚ map_to_list ({[ "admin" := "1.0" ]} : gmap string string) /\
  loadAutoCompletion twoModules {[ "debug" := ["setHead"] ]}
    (inl {[ "admin" := "1.0" ]})
    (map_to_list ({[ "admin" := "1.0" ]} : gmap string string)) !! "debug"
  = match ({[ "admin" := "1.0" ]} : gmap string string) !! "debug" with
    | Some _ => Some (default [] (twoModules !! "debug"))
    | None => None
    end.
Proof.
  assert (H : map_to_list ({[ "admin" := "1.0" ]} : gmap string string)
                ≡ₚ map_to_list ({[ "admin" := "1.0" ]} : gmap string string))
    by reflexivity.
  split; [exact H|].
  exact (loadAutoCompletion_table twoModules {[ "debug" := ["setHead"] ]}
           {[ "admin" := "1.0" ]} _ "debug" H).
Defined.

(** X20.  Loading and completing together: once the table is loaded, a
    token [module.partial] is completed from the package's method list of
    the module if the backend supports the module, and has no suggestion
    if it does not, even when the package lists methods for it. *)
Theorem complete_after_loading
  (AutoCompletion current : gmap string (list string))
  (modules : gmap string string) (order : list (string * string))
  (visit : list (string * list string)) (module partialMethod : string) :
  order ≡ₚ map_to_list modules ->
  Contains module "." = false ->
  Contains partialMethod "." = false ->
  keywordCompleter
    (loadAutoCompletion AutoCompletion current (inl modules) order) visit
    (module ++ "." ++ partialMethod)
  = match modules !! module with
    | Some _ =>
        qualified module
          (startingWith partialMethod (default [] (AutoCompletion !! module)))
    | None => []
    end.
Proof.
  intros Horder Hm Hp. unfold keywordCompleter.
  destruct (Split_module_method module partialMethod Hm Hp) as [-> ->].
  rewrite loaded_lookup by exact Horder.
  destruct (modules !! module); [apply flat_map_filter | reflexivity].
Qed.

Lemma complete_after_loading_witness :
  map_to_list ({[ "admin" := "1.0" ]} : gmap string string)
    ≡ₚ map_to_list ({[ "admin" := "1.0" ]} : gmap string string) /\
  Contains "admin" "." = false /\
  Contains "p" "." = false /\
  keywordCompleter
    (loadAutoCompletion twoModules ∅ (inl {[ "admin" := "1.0" ]})
       (map_to_list ({[ "admin" := "1.0" ]} : gmap string string))) []
    ("admin" ++ "." ++ "p")
  = match ({[ "admin" := "1.0" ]} : gmap string string) !! "admin" with
    | Some _ =>
        qualified "admin" (startingWith "p" (default [] (twoModules !! "admin")))
    | None => []
    end.
Proof.
  assert (H1 : map_to_list ({[ "admin" := "1.0" ]} : gmap string string)
                 ≡ₚ map_to_list ({[ "admin" := "1.0" ]} : gmap string string))
    by reflexivity.
  assert (H2 : Contains "admin" "." = false) by reflexivity.
  assert (H3 : Contains "p" "." = false) by reflexivity.
  repeat (split; [assumption|]).
  exact (complete_after_loading twoModules ∅ {[ "admin" := "1.0" ]} _ []
           "admin" "p" H1 H2 H3).
Defined.
